(** * Cartesian to spherical-harmonic transformation coefficients

    A shallow embedding of [pysisyphus/wavefunction/cart2sph.py]
    (Schlegel, Frisch 1995, Eq. (8), (9) and (15)) and the properties its
    specification states about it.

    Modelling conventions.
    - Python [int] is [Z].
    - Python [float], numpy [float64] and Python [complex] are modelled by
      exact arithmetic: a float is a real number of the Standard Library's
      [R], a complex number is a pair of reals.  Rounding, overflow to
      [inf] and [nan] are outside this model; where Python converts an
      [int] or a [float] to [complex] implicitly the conversion is written
      out ([RtoC]).
    - The normalization constants [sph_norm], [cart_norm] and [norm] are
      modelled a second time, in the module [Double], over doubles with
      overflow: the factorial of a double is [inf] from [171!] on, and the
      values the three functions return then depend on it.
    - An [assert] that fails raises [AssertionError]: functions that can
      raise return [option], [None] standing for the raised exception.
    - [for] loops that accumulate are left folds over the [range] they
      iterate; loops that [append] are maps over it.
    - The external routines [scipy.special.factorial], [scipy.special.binom],
      [cmath.sqrt], [numpy.iscomplex], [numpy.real] and [numpy.abs] are
      given by their documented mathematical meaning. *)

From Stdlib Require Import ZArith List Bool Reals Lra Lia.
From Stdlib Require String DecimalString.
Import ListNotations.
Import String.StringSyntax.
Delimit Scope string_scope with string.

Local Open Scope Z_scope.

(** ** Complex numbers over [R] *)

Record complex : Set := Cx { Re : R; Im : R }.

Declare Scope complex_scope.
Delimit Scope complex_scope with C.
Bind Scope complex_scope with complex.

Definition RtoC (x : R) : complex := Cx x 0.
Definition Czero : complex := RtoC 0.
Definition Cone : complex := RtoC 1.
Definition Ci : complex := Cx 0 1.

Definition Cadd (a b : complex) : complex :=
  Cx (Re a + Re b) (Im a + Im b).

Definition Cmul (a b : complex) : complex :=
  Cx (Re a * Re b - Im a * Im b) (Re a * Im b + Im a * Re b).

Definition Cdiv (a b : complex) : complex :=
  let d := (Re b * Re b + Im b * Im b)%R in
  Cx ((Re a * Re b + Im a * Im b) / d) ((Im a * Re b - Re a * Im b) / d).

Definition Cconj (a : complex) : complex := Cx (Re a) (- Im a).

(** [abs] of a complex number. *)
Definition Cmod (a : complex) : R := sqrt (Re a * Re a + Im a * Im a).

Infix "+" := Cadd : complex_scope.
Infix "*" := Cmul : complex_scope.
Infix "/" := Cdiv : complex_scope.

(** [cmath.sqrt]: the principal square root, with non-negative real part;
    on the negative real axis the root is on the positive imaginary axis. *)
Definition csqrt (z : complex) : complex :=
  Cx (sqrt ((Cmod z + Re z) / 2))
     ((if Rle_dec 0 (Im z) then 1 else -1) * sqrt ((Cmod z - Re z) / 2)).

(** [(-1) ** x] for a float [x]: Python evaluates a negative base with a
    fractional exponent in polar form, [exp (i * pi * x)]; for an integral
    [x] the real power has the same value. *)
Definition pow_neg1 (x : R) : complex := Cx (cos (PI * x)) (sin (PI * x)).

(** ** Python and library primitives *)

(** [range(n)] and [range(a, b)]. *)
Definition range (n : Z) : list Z :=
  map Z.of_nat (seq 0 (Z.to_nat n)).

Definition range2 (a b : Z) : list Z :=
  map (fun k => a + k) (range (b - a)).

(** [scipy.special.factorial] with [exact=False]: [n!] as a float, and [0]
    for a negative argument. *)
Definition fact (n : Z) : R :=
  if n <? 0 then 0%R else INR (Factorial.fact (Z.to_nat n)).

(** [scipy.special.binom] at integer arguments with [0 <= n]: the binomial
    coefficient, [0] when [k] is out of range.  (For a negative integer [n]
    scipy returns [nan]; the code below never passes one.) *)
Definition binom (n k : Z) : R :=
  if (k <? 0) || (n <? k) then 0%R
  else Binomial.C (Z.to_nat n) (Z.to_nat k).

(** [numpy.pi]. *)
Definition np_pi : R := PI.

(** [numpy.iscomplex]: the imaginary part is not zero. *)
Definition np_iscomplex (z : complex) : bool :=
  if Req_dec_T (Im z) 0 then false else true.

(** [numpy.real] keeps the real part; the result stays in the matrix type
    with a zero imaginary part. *)
Definition np_real (z : complex) : complex := RtoC (Re z).

(** [numpy.abs(c) <= t] for one entry. *)
Definition np_abs_le (z : complex) (t : R) : bool :=
  if Rle_dec (Cmod z) t then true else false.

(** The option monad for code that may raise. *)
Definition bind {A B} (x : option A) (f : A -> option B) : option B :=
  match x with Some a => f a | None => None end.

Notation "x <- e ;; k" := (bind e (fun x => k))
  (at level 61, e at next level, right associativity).

Fixpoint mapM {A B} (f : A -> option B) (xs : list A) : option (list B) :=
  match xs with
  | [] => Some []
  | x :: xs' => y <- f x ;; ys <- mapM f xs' ;; Some (y :: ys)
  end.

Definition matrix := list (list complex).

(** [C.T] of a rectangular matrix given as a list of rows. *)
Definition transpose (rows : matrix) : matrix :=
  match rows with
  | [] => []
  | r :: _ =>
      map (fun j => map (fun row => nth j row Czero) rows) (seq 0 (length r))
  end.

(** Modelled from the spec: [canonical_order] of
    [pysisyphus.wavefunction.helpers] is not among the sources.  Section 6
    of the specification gives it as the ordered sequence of the Cartesian
    exponent triples [(lx, ly, lz)] with [lx + ly + lz = l], lexicographic
    by decreasing [lx], then [ly]. *)
Definition canonical_order (l : Z) : list (Z * Z * Z) :=
  flat_map (fun i => map (fun n => (l - i, i - n, n)) (range (i + 1)))
           (range (l + 1)).

(** ** The source functions *)

(** [sph_norm], Eq. (8). *)
Definition sph_norm (n : Z) : complex :=
  (Cone / csqrt (RtoC (fact (2 * n + 2) * Rpower np_pi (1 / 2)
                     / (powerRZ 2 (2 * n + 3) * fact (n + 1)))))%C.

(** [cart_norm], Eq. (9). *)
Definition cart_norm (lx ly lz : Z) : complex :=
  let l := lx + ly + lz in
  (Cone / csqrt (RtoC (fact (2 * lx) * fact (2 * ly) * fact (2 * lz)
                     * Rpower np_pi (3 / 2)
                     / (powerRZ 2 (2 * l) * fact lx * fact ly * fact lz))))%C.

(** [norm]. *)
Definition norm (lx ly lz : Z) : complex :=
  (sph_norm (lx + ly + lz) / cart_norm lx ly lz)%C.

(** The body of the inner loop over [k] of [cart2sph_coeff]. *)
Definition k_step (lx m sign j : Z) (k_sum : complex) (k : Z) : complex :=
  let prefact := pow_neg1 (IZR (sign * (Z.abs m - lx + 2 * k)) / 2) in
  (k_sum + prefact * RtoC (binom j k) * RtoC (binom (Z.abs m) (lx - 2 * k)))%C.

(** The body of the outer loop over [i] of [cart2sph_coeff]. *)
Definition i_step (lx l m sign j lmm : Z) (coeff : complex) (i : Z) : complex :=
  let i_fact :=
    (binom l i * binom i j * powerRZ (-1) i * fact (2 * l - 2 * i)
     / fact (lmm - 2 * i))%R in
  let k_sum := fold_left (k_step lx m sign j) (range (j + 1)) Czero in
  (coeff + RtoC i_fact * k_sum)%C.

(** [cart2sph_coeff], Eq. (15).  [j = (lx + ly - abs(m)) / 2] is a float;
    [(j % 1) != 0] holds exactly when [lx + ly - abs(m)] is odd, and
    [int(j)] truncates.  The early [return 0] gives the [int] zero, here
    the complex zero it compares equal to. *)
Definition cart2sph_coeff (lx ly lz m : Z) (normalized : bool)
  : option complex :=
  let l := lx + ly + lz in
  if negb ((- l <=? m) && (m <=? l)) then None else
  let j2 := lx + ly - Z.abs m in
  if Z.odd j2 then Some Czero else
  let j := Z.quot j2 2 in
  let lfact := fact l in
  let lmm := l - Z.abs m in
  let sign := if 0 <=? m then 1 else -1 in
  let coeff := fold_left (i_step lx l m sign j lmm) (range (lmm / 2 + 1)) Czero in
  let coeff :=
    (coeff * csqrt (RtoC (fact (2 * lx) * fact (2 * ly) * fact (2 * lz)
                          * lfact * fact lmm
                          / (fact (2 * l) * fact lx * fact ly * fact lz
                             * fact (l + Z.abs m)))))%C in
  let coeff := (coeff * RtoC (1 / (powerRZ 2 l * lfact)))%C in
  let coeff := if negb normalized then (coeff / norm lx ly lz)%C else coeff in
  Some coeff.

(** One entry of [all_coeffs]: the body of the loop over [m] of
    [cart2sph_coeffs_for], with the linear combination of [m] and [-m]
    that gives the real spherical orbitals. *)
Definition m_entry (lx ly lz m : Z) (real normalized : bool)
  : option complex :=
  coeff <- cart2sph_coeff lx ly lz m normalized ;;
  if real && negb (m =? 0) then
    coeff_minus <- cart2sph_coeff lx ly lz (- m) normalized ;;
    let sign := if m <? 0 then 1 else -1 in
    Some ((coeff + RtoC (IZR sign) * coeff_minus)
          / csqrt (RtoC (IZR (sign * 2))))%C
  else Some coeff.

(** The nested loops of [cart2sph_coeffs_for]: one row per Cartesian
    triple, one column per [m]. *)
Definition all_coeffs (l : Z) (real normalized : bool) : option matrix :=
  mapM (fun t : Z * Z * Z =>
          let '(lx, ly, lz) := t in
          mapM (fun m => m_entry lx ly lz m real normalized)
               (range2 (- l) (l + 1)))
       (canonical_order l).

(** [~np.iscomplex(C).all()]: [all()] binds before [~], so the value is
    true as soon as one entry of [C] has a zero imaginary part. *)
Definition not_iscomplex_all (C : matrix) : bool :=
  negb (forallb (forallb np_iscomplex) C).

(** Lines 122 to 124: [assert real == ~np.iscomplex(C).all()] followed by
    [C = np.real(C)], for [real = True]. *)
Definition assert_real (C : matrix) : option matrix :=
  if Bool.eqb true (not_iscomplex_all C)
  then Some (map (map np_real) C)
  else None.

(** [cart2sph_coeffs_for]; [kwargs] carries [normalized]. *)
Definition cart2sph_coeffs_for (l : Z) (real normalized : bool)
  : option matrix :=
  C <- all_coeffs l real normalized ;;
  C <- (if real then assert_real C else Some C) ;;
  Some (transpose C).

(** [mask = np.abs(c) <= zero_thresh; c[mask] = 0.0] on one entry. *)
Definition zero_entry (zero_thresh : R) (z : complex) : complex :=
  if np_abs_le z zero_thresh then Czero else z.

(** The loop over [coeffs.values()] of [cart2sph_coeffs]. *)
Definition zero_small_pass (zero_thresh : R) (coeffs : list (Z * matrix))
  : list (Z * matrix) :=
  map (fun lc : Z * matrix =>
         (fst lc, map (map (zero_entry zero_thresh)) (snd lc)))
      coeffs.

(** [cart2sph_coeffs]; the dictionary is the list of its items in
    insertion order, [kwargs] carries [real] and [normalized]. *)
Definition cart2sph_coeffs (l_max : Z) (zero_small : bool) (zero_thresh : R)
  (real normalized : bool) : option (list (Z * matrix)) :=
  coeffs <- mapM (fun l => C <- cart2sph_coeffs_for l real normalized ;;
                           Some (l, C))
                 (range (l_max + 1)) ;;
  Some (if zero_small then zero_small_pass zero_thresh coeffs else coeffs).

(** ** Doubles with overflow

    What the normalization functions return depends on the range of a
    double: [scipy.special.factorial] gives [inf] from [171!] on.  They
    are modelled a second time, over doubles with overflow: a finite
    result is kept exact (rounding and underflow are not modelled, nor is
    the sign of a zero), a result whose magnitude reaches
    [2^1024 - 2^970], the first real that rounds to an infinity, becomes
    the infinity of its sign, and operations on infinities and [nan]
    follow IEEE 754. *)

Inductive double : Set :=
| Finite (x : R)
| PosInf
| NegInf
| NaN.

Definition overflow_threshold : Z := 2 ^ 1024 - 2 ^ 970.

Definition round_overflow (x : R) : double :=
  if Rlt_dec (Rabs x) (IZR overflow_threshold) then Finite x
  else if Rlt_dec 0 x then PosInf else NegInf.

Definition dneg (a : double) : double :=
  match a with
  | Finite x => Finite (- x)
  | PosInf => NegInf
  | NegInf => PosInf
  | NaN => NaN
  end.

Definition dabs (a : double) : double :=
  match a with
  | Finite x => Finite (Rabs x)
  | PosInf | NegInf => PosInf
  | NaN => NaN
  end.

(** An infinity of sign [positive] times a finite [y]. *)
Definition inf_times (positive : bool) (y : R) : double :=
  if Req_dec_T y 0 then NaN
  else if Bool.eqb positive (if Rlt_dec 0 y then true else false)
       then PosInf else NegInf.

Definition dmul (a b : double) : double :=
  match a, b with
  | NaN, _ | _, NaN => NaN
  | Finite x, Finite y => round_overflow (x * y)
  | PosInf, Finite y | Finite y, PosInf => inf_times true y
  | NegInf, Finite y | Finite y, NegInf => inf_times false y
  | PosInf, PosInf | NegInf, NegInf => PosInf
  | PosInf, NegInf | NegInf, PosInf => NegInf
  end.

(** Division of doubles as numpy does it: a division by zero gives an
    infinity or [nan] (with a warning), no exception. *)
Definition ddiv (a b : double) : double :=
  match a, b with
  | NaN, _ | _, NaN => NaN
  | Finite x, Finite y =>
      if Req_dec_T y 0 then
        if Req_dec_T x 0 then NaN
        else if Rlt_dec 0 x then PosInf else NegInf
      else round_overflow (x / y)
  | Finite _, (PosInf | NegInf) => Finite 0
  | PosInf, Finite y => if Rle_dec 0 y then PosInf else NegInf
  | NegInf, Finite y => if Rle_dec 0 y then NegInf else PosInf
  | (PosInf | NegInf), (PosInf | NegInf) => NaN
  end.

Definition dadd (a b : double) : double :=
  match a, b with
  | NaN, _ | _, NaN => NaN
  | Finite x, Finite y => round_overflow (x + y)
  | PosInf, NegInf | NegInf, PosInf => NaN
  | PosInf, _ | _, PosInf => PosInf
  | NegInf, _ | _, NegInf => NegInf
  end.

Definition dsub (a b : double) : double := dadd a (dneg b).

(** [a >= b] on doubles; a comparison with [nan] is false. *)
Definition dge (a b : double) : bool :=
  match a, b with
  | NaN, _ | _, NaN => false
  | PosInf, _ => true
  | _, NegInf => true
  | NegInf, _ => false
  | _, PosInf => false
  | Finite x, Finite y => if Rle_dec y x then true else false
  end.

(** [a == 0.0]. *)
Definition is_zero (a : double) : bool :=
  match a with
  | Finite x => if Req_dec_T x 0 then true else false
  | _ => false
  end.

(** A Python complex number: a pair of doubles. *)
Definition dcomplex : Set := double * double.

(** Division of Python complex numbers ([_Py_c_quot] of CPython): the
    numerator and the denominator are divided by the larger component of
    the divisor; a zero divisor raises [ZeroDivisionError]. *)
Definition complex_div (a b : dcomplex) : option dcomplex :=
  let abs_breal := dabs (fst b) in
  let abs_bimag := dabs (snd b) in
  if dge abs_breal abs_bimag then
    if is_zero abs_breal then None
    else
      let ratio := ddiv (snd b) (fst b) in
      let denom := dadd (fst b) (dmul (snd b) ratio) in
      Some (ddiv (dadd (fst a) (dmul (snd a) ratio)) denom,
            ddiv (dsub (snd a) (dmul (fst a) ratio)) denom)
  else if dge abs_bimag abs_breal then
    let ratio := ddiv (fst b) (snd b) in
    let denom := dadd (dmul (fst b) ratio) (snd b) in
    Some (ddiv (dadd (dmul (fst a) ratio) (snd a)) denom,
          ddiv (dsub (dmul (snd a) ratio) (fst a)) denom)
  else Some (NaN, NaN).

(** [cmath.sqrt] at a float: the root of a negative number is on the
    positive imaginary axis, the root of [inf] is [inf], the root of [nan]
    is [nan + nan j]. *)
Definition cmath_sqrt (x : double) : dcomplex :=
  match x with
  | Finite x =>
      if Rle_dec 0 x then (Finite (sqrt x), Finite 0)
      else (Finite 0, Finite (sqrt (- x)))
  | PosInf => (PosInf, Finite 0)
  | NegInf => (Finite 0, PosInf)
  | NaN => (NaN, NaN)
  end.

(** [scipy.special.factorial] as a double: [inf] once [n!] is beyond the
    largest double. *)
Definition fact_double (n : Z) : double := round_overflow (fact n).

(** A Python [int] that meets a double in a product is converted to a
    double; [OverflowError] if it is too large. *)
Definition int_to_double (z : Z) : option double :=
  if Z.abs z <? overflow_threshold then Some (Finite (IZR z)) else None.

(** [2 ** e] for an [int] [e], as the factor of a double: an [int] for
    [0 <= e], a float for a negative [e]. *)
Definition two_pow (e : Z) : option double :=
  if e <? 0 then Some (Finite (powerRZ 2 e)) else int_to_double (2 ^ e).

(** The three normalization functions over doubles with overflow; [None]
    stands for the raised exception. *)
Module Double.

Definition sph_norm (n : Z) : option dcomplex :=
  let num := dmul (fact_double (2 * n + 2)) (Finite (Rpower np_pi (1 / 2))) in
  p <- two_pow (2 * n + 3) ;;
  let den := dmul p (fact_double (n + 1)) in
  complex_div (Finite 1, Finite 0) (cmath_sqrt (ddiv num den)).

Definition cart_norm (lx ly lz : Z) : option dcomplex :=
  let l := lx + ly + lz in
  let num :=
    dmul (dmul (dmul (fact_double (2 * lx)) (fact_double (2 * ly)))
               (fact_double (2 * lz)))
         (Finite (Rpower np_pi (3 / 2))) in
  p <- two_pow (2 * l) ;;
  let den :=
    dmul (dmul (dmul p (fact_double lx)) (fact_double ly)) (fact_double lz) in
  complex_div (Finite 1, Finite 0) (cmath_sqrt (ddiv num den)).

Definition norm (lx ly lz : Z) : option dcomplex :=
  s <- sph_norm (lx + ly + lz) ;;
  c <- cart_norm lx ly lz ;;
  complex_div s c.

End Double.

(** Factorials in [Z], to compare them with the overflow threshold. *)
Fixpoint zfact (n : nat) : Z :=
  match n with
  | O => 1
  | S k => Z.of_nat (S k) * zfact k
  end.

(** ** The closed form of the specification

    Section 4.2 of the specification, written with mathematical sums,
    factorials and binomial coefficients; it is compared with
    [cart2sph_coeff] below. *)

(** [n!] for [0 <= n]. *)
Definition factorial (n : Z) : R := INR (Factorial.fact (Z.to_nat n)).

(** The standard binomial coefficient [C(n,k)], zero when [k] is out of
    range. *)
Definition choose (n k : Z) : R :=
  if (0 <=? k) && (k <=? n)
  then (factorial n / (factorial k * factorial (n - k)))%R
  else 0%R.

(** The sum of [f i] for [i = 0 .. hi] (empty when [hi < 0]). *)
Definition Csum (f : Z -> complex) (hi : Z) : complex :=
  fold_right (fun i acc => (f i + acc)%C) Czero (range (hi + 1)).

(** The term [i_fact(i)] of the outer sum. *)
Definition spec_i_fact (l m j i : Z) : R :=
  (choose l i * choose i j * (-1) ^ Z.to_nat i * factorial (2 * l - 2 * i)
   / factorial (l - Z.abs m - 2 * i))%R.

(** The inner sum over [k = 0 .. j]. *)
Definition spec_k_sum (lx m j : Z) : complex :=
  Csum (fun k =>
          (pow_neg1 (IZR (Z.sgn m * (Z.abs m - lx + 2 * k)) / 2)
           * RtoC (choose j k * choose (Z.abs m) (lx - 2 * k)))%C) j.

(** The normalization prefactor. *)
Definition spec_prefactor (lx ly lz m : Z) : R :=
  let l := lx + ly + lz in
  (sqrt (factorial (2 * lx) * factorial (2 * ly) * factorial (2 * lz)
         * factorial l * factorial (l - Z.abs m)
         / (factorial (2 * l) * factorial lx * factorial ly * factorial lz
            * factorial (l + Z.abs m)))
   / (2 ^ Z.to_nat l * factorial l))%R.

(** The double sum times the prefactor, with [j = (lx + ly - |m|) / 2]. *)
Definition closed_form (lx ly lz m : Z) : complex :=
  let l := lx + ly + lz in
  let j := (lx + ly - Z.abs m) / 2 in
  (Csum (fun i => RtoC (spec_i_fact l m j i) * spec_k_sum lx m j)
        ((l - Z.abs m) / 2)
   * RtoC (spec_prefactor lx ly lz m))%C.

(** ** Printing: [print_coeffs] and [run]

    The standard output is the list of the lines printed, one per call of
    [print]. *)

(** [str(n)] and [repr(n)] of an [int]. *)
Definition py_str (n : Z) : String.string :=
  DecimalString.NilZero.string_of_int (Z.to_int n).

(** The text [s] right-aligned with spaces in a field of width [w], as the
    format [" >13d"] aligns the digits of an [int]; a longer text is kept
    whole. *)
Definition rjust (w : nat) (s : String.string) : String.string :=
  String.append (String.concat "" (repeat " "%string (w - String.length s))) s.

(** [f"{m: >13d}"]. *)
Definition format_13d (m : Z) : String.string := rjust 13 (py_str m).

(** [verb]: the monomial of a triple, ["x"] [lx] times, then ["y"], then
    ["z"]; a list times a negative number is empty. *)
Definition verb (lx ly lz : Z) : String.string :=
  String.concat ""
    (repeat "x"%string (Z.to_nat lx) ++ repeat "y"%string (Z.to_nat ly)
     ++ repeat "z"%string (Z.to_nat lz)).

(** The parsed command line: [args.l_max] and [args.not_normalized]. *)
Record Namespace : Set := {
  args_l_max : Z;
  args_not_normalized : bool
}.

Section Printing.

(** ["{:>12.4f}".format(x)], the text of one matrix entry, is Python's. *)
Variable format_12_4f : complex -> String.string.

(** [parse_args] is [argparse]'s work on [sys.argv[1:]]; [None] stands for
    the exit of the parser on a malformed command line. *)
Variable parse_args : list String.string -> option Namespace.

(** [print_coeffs]: the header with the orders [m], then one line per pair
    of [zip(canonical_order(l), C)]. *)
Definition print_coeffs (l : Z) (C : matrix) : list String.string :=
  String.concat "" (map format_13d (range2 (- l) (l + 1)))
  :: map (fun tl : Z * Z * Z * list complex =>
            let '(lx, ly, lz, line) := tl in
            String.append (verb lx ly lz)
              (String.append ": " (String.concat "" (map format_12_4f line))))
         (combine (canonical_order l) C).

(** [run]: [zero_small] and [real] keep their defaults. *)
Definition run (argv : list String.string) : option (list String.string) :=
  args <- parse_args argv ;;
  let l_max := args_l_max args in
  let normalized := negb (args_not_normalized args) in
  Cs <- cart2sph_coeffs l_max false (1 / 100000000000000) true normalized ;;
  Some (flat_map (fun lC : Z * matrix =>
                    let '(l, C) := lC in
                    String.append "l=" (py_str l)
                    :: print_coeffs l (transpose C) ++ [""%string])
                 Cs).

End Printing.

(** ** Shells from a basis set: [pysisyphus/wavefunction/Basis.py]

    Code that may raise more than one kind of exception returns a
    [result]: the exception raised or the value returned. *)

Inductive exn : Set :=
  | AssertionError
  | KeyError
  | ValueError
  | ExternalError.

Definition result (A : Type) : Type := (exn + A)%type.

Definition rbind {A B} (x : result A) (f : A -> result B) : result B :=
  match x with inl e => inl e | inr a => f a end.

Notation "x <~ e ;; k" := (rbind e (fun x => k))
  (at level 61, e at next level, right associativity).

Fixpoint rmapM {A B} (f : A -> result B) (xs : list A) : result (list B) :=
  match xs with
  | [] => inr []
  | x :: xs' => y <~ f x ;; ys <~ rmapM f xs' ;; inr (y :: ys)
  end.

(** [d[key]] of a dictionary, here a partial function of the key. *)
Definition getitem {K V} (d : K -> option V) (key : K) : result V :=
  match d key with Some v => inr v | None => inl KeyError end.

(** The rows of [np.reshape(coords, (n, 3))] for a flat [coords]. *)
Fixpoint rows3 (coords : list R) : list (R * R * R) :=
  match coords with
  | x :: y :: z :: rest => (x, y, z) :: rows3 rest
  | _ => []
  end.

(** [np.reshape(coords, (n, 3))] raises [ValueError] unless [coords] has
    [3 n] entries. *)
Definition np_reshape3 (n : nat) (coords : list R)
  : result (list (R * R * R)) :=
  if (length coords =? 3 * n)%nat then inr (rows3 coords)
  else inl ValueError.

Section Basis.

(** The JSON values of the exponents and of one list of contraction
    coefficients are handed on as they are. *)
Variables Exps Coeffs : Type.

(** One entry of ["electron_shells"] and one entry of the basis, with the
    keys the code reads. *)
Record BShell : Type := {
  angular_momentum : list Z;
  exponents : Exps;
  coefficients : list Coeffs
}.

Record Element : Type := { electron_shells : list BShell }.

Definition BasisDict : Type := String.string -> option Element.

(** What is imported: the table [ATOMIC_NUMBERS], [str.lower], the classes
    [Shell] and [Shells], whose constructors may raise, and the file
    system behind [basis_from_json]. *)
Variables ShellT ShellsT : Type.
Variable ATOMIC_NUMBERS : String.string -> option Z.
Variable str_lower : String.string -> String.string.
Variable Shell :
  Z -> R * R * R -> Coeffs -> Exps -> String.string -> Z -> result ShellT.
Variable Shells : list ShellT -> result ShellsT.
Variable basis_from_json : String.string -> result BasisDict.

(** The loop over [bshell["coefficients"]] and its enclosing loop body:
    the shells of one entry of ["electron_shells"]. *)
Definition bshell_shells (c3d : R * R * R) (Zs : String.string) (i : Z)
  (bshell : BShell) : result (list ShellT) :=
  let L := angular_momentum bshell in
  if negb (length L =? 1)%nat then inl AssertionError else
  let L := nth 0 L 0 in
  let exponents := exponents bshell in
  rmapM (fun coeffs => Shell L c3d coeffs exponents Zs i)
        (coefficients bshell).

(** The body of the loop over the atoms. *)
Definition atom_shells (basis : BasisDict)
  (iac : nat * (String.string * (R * R * R))) : result (list ShellT) :=
  let '(i, (atom, c3d)) := iac in
  number <~ getitem ATOMIC_NUMBERS (str_lower atom) ;;
  let Zs := py_str number in
  el <~ getitem basis Zs ;;
  let basis_shells := electron_shells el in
  shells <~ rmapM (bshell_shells c3d Zs (Z.of_nat i)) basis_shells ;;
  inr (concat shells).

(** [shells_with_basis]; [kwargs] is part of [shells_cls]. *)
Definition shells_with_basis (atoms : list String.string) (coords : list R)
  (basis : option BasisDict) (name : option String.string)
  (shells_cls : option (list ShellT -> result ShellsT)) : result ShellsT :=
  match basis, name with
  | None, None => inl AssertionError
  | _, _ =>
      let shells_cls :=
        match shells_cls with None => Shells | Some cls => cls end in
      basis <~ match name, basis with
               | Some name, _ => basis_from_json name
               | None, Some basis => inr basis
               | None, None => inl AssertionError
               end ;;
      coords3d <~ np_reshape3 (length atoms) coords ;;
      shells <~ rmapM (atom_shells basis)
                      (combine (seq 0 (length atoms))
                               (combine atoms coords3d)) ;;
      shells_cls (concat shells)
  end.

End Basis.

Arguments angular_momentum {Exps Coeffs}.
Arguments exponents {Exps Coeffs}.
Arguments coefficients {Exps Coeffs}.
Arguments electron_shells {Exps Coeffs}.

(** * Properties *)

Local Open Scope R_scope.

(** ** Complex arithmetic *)

Lemma complex_eq (a b : complex) : Re a = Re b -> Im a = Im b -> a = b.
Proof. destruct a, b; simpl; intros -> ->; reflexivity. Qed.

Ltac cx_ring :=
  apply complex_eq; simpl; ring.

Lemma Cadd_comm (a b : complex) : (a + b)%C = (b + a)%C.
Proof. cx_ring. Qed.

Lemma Cadd_assoc (a b c : complex) : (a + (b + c))%C = (a + b + c)%C.
Proof. cx_ring. Qed.

Lemma Cadd_0_l (a : complex) : (Czero + a)%C = a.
Proof. destruct a; cx_ring. Qed.

Lemma Cadd_0_r (a : complex) : (a + Czero)%C = a.
Proof. destruct a; cx_ring. Qed.

Lemma Cmul_assoc (a b c : complex) : (a * (b * c))%C = (a * b * c)%C.
Proof. cx_ring. Qed.


Lemma Cmul_1_r (a : complex) : (a * Cone)%C = a.
Proof. destruct a; cx_ring. Qed.

Lemma RtoC_mul (x y : R) : (RtoC x * RtoC y)%C = RtoC (x * y).
Proof. cx_ring. Qed.


Lemma Cconj_add (a b : complex) : Cconj (a + b) = (Cconj a + Cconj b)%C.
Proof. cx_ring. Qed.

Lemma Cconj_mul (a b : complex) : Cconj (a * b) = (Cconj a * Cconj b)%C.
Proof. cx_ring. Qed.

Lemma Cconj_RtoC (x : R) : Cconj (RtoC x) = RtoC x.
Proof. cx_ring. Qed.

Lemma Cconj_div (a b : complex) : Cconj (a / b) = (Cconj a / Cconj b)%C.
Proof.
  apply complex_eq; simpl; unfold Rdiv.
  - replace (- Im b * - Im b) with (Im b * Im b) by ring. ring.
  - replace (- Im b * - Im b) with (Im b * Im b) by ring. ring.
Qed.

Lemma Cconj_real (a : complex) : Im a = 0 -> Cconj a = a.
Proof. intros H; apply complex_eq; simpl; [reflexivity | rewrite H; ring]. Qed.

(** The principal root of a non-negative real is its real root. *)
Lemma csqrt_RtoC_nonneg (x : R) : 0 <= x -> csqrt (RtoC x) = RtoC (sqrt x).
Proof.
  intros Hx. unfold csqrt, Cmod, RtoC; simpl.
  replace (x * x + 0 * 0) with (Rsqr x) by (unfold Rsqr; ring).
  rewrite sqrt_Rsqr by exact Hx.
  replace ((x + x) / 2) with x by field.
  replace ((x - x) / 2) with 0 by field.
  rewrite sqrt_0. f_equal. destruct (Rle_dec 0 0); ring.
Qed.

(** The principal root of a negative real is on the positive imaginary
    axis. *)
Lemma csqrt_RtoC_neg (x : R) : 0 <= x -> csqrt (RtoC (- x)) = Cx 0 (sqrt x).
Proof.
  intros Hx. unfold csqrt, Cmod, RtoC; simpl.
  replace (- x * - x + 0 * 0) with (Rsqr x) by (unfold Rsqr; ring).
  rewrite sqrt_Rsqr by exact Hx.
  replace ((x + - x) / 2) with 0 by field.
  replace ((x - - x) / 2) with x by field.
  rewrite sqrt_0. f_equal.
  destruct (Rle_dec 0 0) as [_ | n]; [ring | exfalso; apply n; lra].
Qed.

Lemma pow_neg1_0 : pow_neg1 0 = Cone.
Proof.
  unfold pow_neg1. rewrite Rmult_0_r, cos_0, sin_0. reflexivity.
Qed.

Lemma pow_neg1_opp (x : R) : pow_neg1 (- x) = Cconj (pow_neg1 x).
Proof.
  unfold pow_neg1, Cconj; simpl.
  replace (PI * - x) with (- (PI * x)) by ring.
  rewrite cos_neg, sin_neg. reflexivity.
Qed.

Lemma RtoC_div (a b : R) : b <> 0 -> (RtoC a / RtoC b)%C = RtoC (a / b).
Proof.
  intros Hb. apply complex_eq; simpl; field; exact Hb.
Qed.

(** ** Factorials, binomials and ranges *)

Lemma fact_pos (n : Z) : (0 <= n)%Z -> 0 < fact n.
Proof.
  intros Hn. unfold fact.
  destruct (Z.ltb_spec n 0) as [Hlt | _]; [lia |].
  apply INR_fact_lt_0.
Qed.

Lemma fact_nonneg (n : Z) : 0 <= fact n.
Proof.
  unfold fact. destruct (n <? 0)%Z; [lra |].
  left; apply INR_fact_lt_0.
Qed.

Lemma fact_factorial (n : Z) : (0 <= n)%Z -> fact n = factorial n.
Proof.
  intros Hn. unfold fact, factorial.
  destruct (Z.ltb_spec n 0) as [Hlt | _]; [lia | reflexivity].
Qed.

Lemma binom_choose (n k : Z) : binom n k = choose n k.
Proof.
  unfold binom, choose, factorial, Binomial.C.
  destruct (Z.ltb_spec k 0) as [Hk | Hk]; simpl.
  - destruct (Z.leb_spec 0 k); [lia | reflexivity].
  - destruct (Z.leb_spec 0 k) as [_ | ?]; [simpl | lia].
    destruct (Z.ltb_spec n k) as [Hnk | Hnk];
      destruct (Z.leb_spec k n) as [Hkn | Hkn]; try lia; try reflexivity.
    rewrite Z2Nat.inj_sub by exact Hk. reflexivity.
Qed.

Lemma binom_out_of_range (n k : Z) : (k < 0 \/ n < k)%Z -> binom n k = 0.
Proof.
  intros H. unfold binom.
  destruct (Z.ltb_spec k 0); destruct (Z.ltb_spec n k); simpl;
    try reflexivity; lia.
Qed.

Lemma binom_0_0 : binom 0 0 = 1.
Proof. unfold binom, Binomial.C; simpl. field. Qed.

Lemma fact_0 : fact 0 = 1.
Proof. reflexivity. Qed.

Lemma powerRZ_2_pos (z : Z) : 0 < powerRZ 2 z.
Proof. apply powerRZ_lt; lra. Qed.

Lemma Rpower_pos (x y : R) : 0 < Rpower x y.
Proof. unfold Rpower; apply exp_pos. Qed.

(** Positivity of the products and quotients under the square roots. *)
Create HintDb positivity.
#[local] Hint Resolve Rmult_lt_0_compat Rdiv_lt_0_compat powerRZ_2_pos
  Rpower_pos : positivity.
#[local] Hint Extern 1 (0 < fact _) => apply fact_pos; lia : positivity.

Lemma in_range (n k : Z) : In k (range n) <-> (0 <= k < n)%Z.
Proof.
  unfold range. rewrite in_map_iff. split.
  - intros [i [<- Hi]]. apply in_seq in Hi. lia.
  - intros Hk. exists (Z.to_nat k). split; [lia |].
    apply in_seq. lia.
Qed.

Lemma length_range (n : Z) : length (range n) = Z.to_nat n.
Proof. unfold range. rewrite length_map, length_seq. reflexivity. Qed.

Lemma in_range2 (a b k : Z) : In k (range2 a b) <-> (a <= k < b)%Z.
Proof.
  unfold range2. rewrite in_map_iff. split.
  - intros [i [<- Hi]]. apply in_range in Hi. lia.
  - intros Hk. exists (k - a)%Z. split; [lia |]. apply in_range. lia.
Qed.

Lemma length_range2 (a b : Z) : length (range2 a b) = Z.to_nat (b - a).
Proof. unfold range2. rewrite length_map. apply length_range. Qed.

(** ** The normalization constants *)

Lemma inv_csqrt_pos (x : R) :
  0 < x -> (Cone / csqrt (RtoC x))%C = RtoC (/ sqrt x).
Proof.
  intros Hx. rewrite csqrt_RtoC_nonneg by lra.
  unfold Cone. rewrite RtoC_div.
  - f_equal. unfold Rdiv. ring.
  - apply Rgt_not_eq, sqrt_lt_R0, Hx.
Qed.

Lemma sph_norm_arg_pos (n : Z) :
  (0 <= n)%Z ->
  0 < fact (2 * n + 2) * Rpower np_pi (1 / 2)
      / (powerRZ 2 (2 * n + 3) * fact (n + 1)).
Proof.
  intros Hn. auto 10 with positivity.
Qed.

Lemma cart_norm_arg_pos (lx ly lz : Z) :
  (0 <= lx)%Z -> (0 <= ly)%Z -> (0 <= lz)%Z ->
  0 < fact (2 * lx) * fact (2 * ly) * fact (2 * lz) * Rpower np_pi (3 / 2)
      / (powerRZ 2 (2 * (lx + ly + lz)) * fact lx * fact ly * fact lz).
Proof.
  intros Hx Hy Hz. auto 10 with positivity.
Qed.

Lemma sph_norm_real (n : Z) :
  (0 <= n)%Z ->
  exists r : R, 0 < r /\ sph_norm n = RtoC r.
Proof.
  intros Hn. pose proof (sph_norm_arg_pos n Hn) as Hpos.
  eexists; split; [| unfold sph_norm; apply inv_csqrt_pos, Hpos].
  apply Rinv_0_lt_compat, sqrt_lt_R0, Hpos.
Qed.

Lemma cart_norm_real (lx ly lz : Z) :
  (0 <= lx)%Z -> (0 <= ly)%Z -> (0 <= lz)%Z ->
  exists r : R, 0 < r /\ cart_norm lx ly lz = RtoC r.
Proof.
  intros Hx Hy Hz. pose proof (cart_norm_arg_pos lx ly lz Hx Hy Hz) as Hpos.
  eexists; split; [| unfold cart_norm; cbv zeta; apply inv_csqrt_pos, Hpos].
  apply Rinv_0_lt_compat, sqrt_lt_R0, Hpos.
Qed.

Lemma norm_real (lx ly lz : Z) :
  (0 <= lx)%Z -> (0 <= ly)%Z -> (0 <= lz)%Z ->
  exists r : R, 0 < r /\ norm lx ly lz = RtoC r.
Proof.
  intros Hx Hy Hz.
  destruct (sph_norm_real (lx + ly + lz) ltac:(lia)) as [s [Hs Es]].
  destruct (cart_norm_real lx ly lz Hx Hy Hz) as [c [Hc Ec]].
  exists (s / c). split; [apply Rdiv_lt_0_compat; assumption |].
  unfold norm. rewrite Es, Ec. apply RtoC_div. lra.
Qed.

(** ** Doubles with overflow *)

Lemma threshold_gt_1 : 1 < IZR overflow_threshold.
Proof. apply IZR_lt. vm_compute. reflexivity. Qed.

Lemma round_overflow_finite (x : R) :
  Rabs x < IZR overflow_threshold -> round_overflow x = Finite x.
Proof.
  intros H. unfold round_overflow.
  destruct (Rlt_dec (Rabs x) (IZR overflow_threshold)) as [_ | n];
    [reflexivity | contradiction].
Qed.

Lemma round_overflow_inf (x : R) :
  IZR overflow_threshold <= x -> round_overflow x = PosInf.
Proof.
  intros H. pose proof threshold_gt_1 as H1. unfold round_overflow.
  destruct (Rlt_dec (Rabs x) (IZR overflow_threshold)) as [Hlt | _].
  - rewrite Rabs_pos_eq in Hlt by lra. lra.
  - destruct (Rlt_dec 0 x) as [_ | n]; [reflexivity | lra].
Qed.

Lemma round_overflow_nonneg (x : R) :
  0 <= x -> x < IZR overflow_threshold -> round_overflow x = Finite x.
Proof.
  intros H0 H. apply round_overflow_finite. rewrite Rabs_pos_eq; assumption.
Qed.

Lemma dmul_finite (x y : R) :
  0 <= x * y < IZR overflow_threshold ->
  dmul (Finite x) (Finite y) = Finite (x * y).
Proof. intros [H0 H]. apply round_overflow_nonneg; assumption. Qed.

Lemma ddiv_finite (x y : R) :
  y <> 0 -> 0 <= x / y < IZR overflow_threshold ->
  ddiv (Finite x) (Finite y) = Finite (x / y).
Proof.
  intros Hy [H0 H]. unfold ddiv.
  destruct (Req_dec_T y 0) as [E | _]; [contradiction |].
  apply round_overflow_nonneg; assumption.
Qed.

Lemma dadd_finite (x y : R) :
  0 <= x + y < IZR overflow_threshold ->
  dadd (Finite x) (Finite y) = Finite (x + y).
Proof. intros [H0 H]. apply round_overflow_nonneg; assumption. Qed.

Lemma dsub_finite (x y : R) :
  0 <= x - y < IZR overflow_threshold ->
  dsub (Finite x) (Finite y) = Finite (x - y).
Proof.
  intros [H0 H]. unfold dsub, dneg, dadd.
  apply round_overflow_nonneg; assumption.
Qed.

(** The quotient of two positive reals that are doubles, by Python's
    complex division. *)
Lemma complex_div_real (a b : R) :
  0 <= a < IZR overflow_threshold -> 0 < b < IZR overflow_threshold ->
  a / b < IZR overflow_threshold ->
  complex_div (Finite a, Finite 0) (Finite b, Finite 0)
  = Some (Finite (a / b), Finite 0).
Proof.
  intros [Ha0 Ha] [Hb0 Hb] Hq. pose proof threshold_gt_1 as H1.
  assert (Hbn : b <> 0) by lra.
  unfold complex_div. cbn [fst snd dabs].
  rewrite Rabs_R0, (Rabs_pos_eq b) by lra.
  unfold dge. destruct (Rle_dec 0 b) as [_ | n]; [| lra].
  unfold is_zero. destruct (Req_dec_T b 0) as [E | _]; [lra |].
  assert (Hr : ddiv (Finite 0) (Finite b) = Finite 0).
  { rewrite ddiv_finite; [f_equal; field; exact Hbn | exact Hbn |].
    replace (0 / b) with 0 by (field; exact Hbn). lra. }
  rewrite Hr.
  assert (H00 : dmul (Finite 0) (Finite 0) = Finite 0).
  { rewrite dmul_finite; [f_equal; ring |]. rewrite Rmult_0_l. lra. }
  rewrite H00.
  assert (Ha0' : dmul (Finite a) (Finite 0) = Finite 0).
  { rewrite dmul_finite; [f_equal; ring |]. rewrite Rmult_0_r. lra. }
  rewrite Ha0'.
  rewrite (dadd_finite b 0), (dadd_finite a 0), (dsub_finite 0 0)
    by (rewrite ?Rplus_0_r, ?Rminus_0_r; lra).
  rewrite Rplus_0_r, Rplus_0_r, Rminus_0_r.
  rewrite (ddiv_finite a b), (ddiv_finite 0 b); try exact Hbn.
  - do 3 f_equal. field. exact Hbn.
  - replace (0 / b) with 0 by (field; exact Hbn). lra.
  - split; [| exact Hq]. apply Rmult_le_pos; [exact Ha0 |].
    left; apply Rinv_0_lt_compat, Hb0.
Qed.

Lemma cmath_sqrt_nonneg (x : R) :
  0 <= x -> cmath_sqrt (Finite x) = (Finite (sqrt x), Finite 0).
Proof.
  intros H. unfold cmath_sqrt.
  destruct (Rle_dec 0 x) as [_ | n]; [reflexivity | contradiction].
Qed.

(** Factorials against the threshold. *)
Lemma INR_fact_zfact (n : nat) : INR (Factorial.fact n) = IZR (zfact n).
Proof.
  rewrite INR_IZR_INZ. f_equal. induction n as [| n IH]; [reflexivity |].
  change (Factorial.fact (S n)) with (S n * Factorial.fact n)%nat.
  rewrite Nat2Z.inj_mul, IH. reflexivity.
Qed.

Lemma zfact_pos (n : nat) : (1 <= zfact n)%Z.
Proof.
  induction n as [| n IH]; [cbn; lia |].
  change (zfact (S n)) with (Z.of_nat (S n) * zfact n)%Z. nia.
Qed.

Lemma zfact_mono (n m : nat) : (n <= m)%nat -> (zfact n <= zfact m)%Z.
Proof.
  induction 1 as [| m _ IH]; [lia |].
  change (zfact (S m)) with (Z.of_nat (S m) * zfact m)%Z.
  pose proof (zfact_pos n). nia.
Qed.

Lemma fact_zfact (n : Z) : (0 <= n)%Z -> fact n = IZR (zfact (Z.to_nat n)).
Proof.
  intros Hn. unfold fact.
  destruct (Z.ltb_spec n 0) as [Hlt | _]; [lia |]. apply INR_fact_zfact.
Qed.

Lemma fact_bounds (n : Z) (N : nat) :
  (0 <= n <= Z.of_nat N)%Z -> 1 <= fact n <= IZR (zfact N).
Proof.
  intros Hn. rewrite fact_zfact by lia. split.
  - apply IZR_le, zfact_pos.
  - apply IZR_le, zfact_mono. lia.
Qed.

(** [a! b! <= (a + b)!]. *)
Lemma zfact_mul_le (a b : nat) : (zfact a * zfact b <= zfact (a + b))%Z.
Proof.
  induction a as [| a IH]; [cbn [zfact Nat.add]; lia |].
  change (zfact (S a)) with (Z.of_nat (S a) * zfact a)%Z.
  change (zfact (S a + b)) with (Z.of_nat (S (a + b)) * zfact (a + b))%Z.
  pose proof (zfact_pos a). pose proof (zfact_pos b).
  pose proof (zfact_pos (a + b)).
  transitivity (Z.of_nat (S a) * zfact (a + b))%Z; nia.
Qed.

Lemma fact_mul_le (a b : Z) :
  (0 <= a)%Z -> (0 <= b)%Z -> fact a * fact b <= fact (a + b).
Proof.
  intros Ha Hb. rewrite !fact_zfact by lia. rewrite <- mult_IZR.
  apply IZR_le. rewrite Z2Nat.inj_add by lia. apply zfact_mul_le.
Qed.

Lemma fact_double_finite (n : Z) :
  (0 <= n <= 170)%Z -> fact_double n = Finite (fact n).
Proof.
  intros Hn. unfold fact_double.
  destruct (fact_bounds n 170 ltac:(lia)) as [H1 H2].
  apply round_overflow_nonneg; [lra |].
  apply Rle_lt_trans with (1 := H2). apply IZR_lt. vm_compute. reflexivity.
Qed.

Lemma fact_double_inf (n : Z) : (171 <= n)%Z -> fact_double n = PosInf.
Proof.
  intros Hn. unfold fact_double. apply round_overflow_inf.
  rewrite fact_zfact by lia.
  apply Rle_trans with (IZR (zfact 171)).
  - apply IZR_le. vm_compute. discriminate.
  - apply IZR_le, zfact_mono. lia.
Qed.

(** Powers of [pi]. *)
Lemma sqrt_pi_bounds : 1 <= Rpower np_pi (1 / 2) <= 2.
Proof.
  unfold np_pi. replace (1 / 2) with (/ 2) by lra.
  rewrite Rpower_sqrt by apply PI_RGT_0.
  pose proof PI_4 as H4. pose proof PI2_3_2 as H3.
  split.
  - rewrite <- sqrt_1. apply sqrt_le_1; lra.
  - replace 2 with (sqrt 4).
    + apply sqrt_le_1; lra.
    + replace 4 with (2 * 2) by ring. apply sqrt_square. lra.
Qed.

Lemma pi_three_halves_bounds : 1 <= Rpower np_pi (3 / 2) <= 8.
Proof.
  pose proof sqrt_pi_bounds as [H1 H2].
  pose proof PI_4 as H4. pose proof PI2_3_2 as H3.
  replace (3 / 2) with (1 + 1 / 2) by lra.
  rewrite Rpower_plus, Rpower_1 by apply PI_RGT_0.
  unfold np_pi in *. split; nra.
Qed.

Lemma two_pow_nonneg (e E : Z) :
  (0 <= e <= E)%Z -> (E < 1024)%Z ->
  two_pow e = Some (Finite (powerRZ 2 e)) /\
  1 <= powerRZ 2 e <= IZR (2 ^ E).
Proof.
  intros He HE.
  assert (Hp : powerRZ 2 e = IZR (2 ^ e)).
  { rewrite <- (Z2Nat.id e) at 1 by lia. rewrite <- pow_powerRZ.
    rewrite <- (Z2Nat.id e) at 2 by lia. rewrite <- pow_IZR. reflexivity. }
  assert (Hle : (2 ^ e <= 2 ^ E)%Z)
    by (apply Z.pow_le_mono_r; lia).
  assert (H1 : (1 <= 2 ^ e)%Z) by (apply Z.lt_pred_le, Z.pow_pos_nonneg; lia).
  split.
  - unfold two_pow, int_to_double.
    destruct (Z.ltb_spec e 0) as [Hlt | _]; [lia |].
    rewrite Hp.
    destruct (Z.ltb_spec (Z.abs (2 ^ e)) overflow_threshold) as [_ | Hge];
      [reflexivity | exfalso].
    assert (2 ^ E <= 2 ^ 1023)%Z by (apply Z.pow_le_mono_r; lia).
    assert (2 ^ 1023 < overflow_threshold)%Z by (vm_compute; reflexivity).
    lia.
  - rewrite Hp. split; apply IZR_le; assumption.
Qed.

Lemma mul_bounds (a b A B : R) :
  1 <= a <= A -> 1 <= b <= B -> 1 <= a * b <= A * B.
Proof. intros [Ha HA] [Hb HB]. split; nra. Qed.

Lemma sqrt_lt_threshold (x : R) :
  0 <= x < IZR overflow_threshold -> sqrt x < IZR overflow_threshold.
Proof.
  intros [H0 H]. pose proof threshold_gt_1 as H1.
  destruct (Rle_lt_dec x 1) as [Hle | Hgt].
  - apply Rle_lt_trans with (2 := H1). rewrite <- sqrt_1.
    apply sqrt_le_1; lra.
  - apply Rle_lt_trans with (2 := H).
    pose proof (sqrt_def x H0) as Hd.
    assert (1 <= sqrt x).
    { rewrite <- sqrt_1. apply sqrt_le_1; lra. }
    nra.
Qed.

(** The reciprocal root of a quotient of two doubles that are at least 1. *)
Lemma inv_sqrt_value (num den : R) (Nmax Dmax : Z) :
  1 <= num <= IZR Nmax -> 1 <= den <= IZR Dmax ->
  (Nmax < overflow_threshold)%Z -> (Dmax < overflow_threshold)%Z ->
  complex_div (Finite 1, Finite 0)
              (cmath_sqrt (ddiv (Finite num) (Finite den)))
  = Some (Finite (/ sqrt (num / den)), Finite 0) /\
  0 < / sqrt (num / den) < IZR overflow_threshold /\
  / IZR Dmax <= num / den <= IZR Nmax.
Proof.
  intros [Hn1 HnN] [Hd1 HdD] HN HD.
  apply IZR_lt in HN, HD. pose proof threshold_gt_1 as H1.
  remember (IZR overflow_threshold) as T eqn:ET.
  set (N := IZR Nmax) in *. clearbody N.
  set (D := IZR Dmax) in *. clearbody D.
  assert (Hid : 0 < / den <= 1).
  { split; [apply Rinv_0_lt_compat; lra |].
    rewrite <- Rinv_1. apply Rinv_le_contravar; lra. }
  assert (HiD : / D <= / den) by (apply Rinv_le_contravar; lra).
  assert (HiD0 : 0 < / D) by (apply Rinv_0_lt_compat; lra).
  assert (HX : / D <= num / den <= N) by (unfold Rdiv; split; nra).
  assert (HX0 : 0 < num / den) by lra.
  set (X := num / den) in *.
  assert (Hs0 : 0 < sqrt X) by (apply sqrt_lt_R0, HX0).
  assert (HsT : sqrt X < T)
    by (rewrite ET; apply sqrt_lt_threshold; rewrite <- ET; lra).
  assert (HiT : / sqrt X < T).
  { destruct (Rle_lt_dec 1 X) as [Hge | Hlt].
    - apply Rle_lt_trans with (2 := H1). rewrite <- Rinv_1.
      apply Rinv_le_contravar; [lra |].
      rewrite <- sqrt_1. apply sqrt_le_1; lra.
    - apply Rle_lt_trans with (/ X).
      + apply Rinv_le_contravar; [exact HX0 |].
        pose proof (sqrt_def X (Rlt_le _ _ HX0)) as Hd.
        assert (sqrt X <= 1).
        { rewrite <- sqrt_1. apply sqrt_le_1; lra. }
        nra.
      + apply Rle_lt_trans with (/ / D).
        * apply Rinv_le_contravar; lra.
        * rewrite Rinv_inv. lra. }
  assert (Hi0 : 0 < / sqrt X) by (apply Rinv_0_lt_compat, Hs0).
  split; [| split; [split; assumption | exact HX]].
  rewrite ddiv_finite by (rewrite <- ?ET; fold X; lra). fold X.
  rewrite cmath_sqrt_nonneg by lra.
  rewrite complex_div_real; rewrite <- ?ET.
  - do 3 f_equal. unfold Rdiv. ring.
  - lra.
  - lra.
  - unfold Rdiv. rewrite Rmult_1_l. exact HiT.
Qed.

(** The arguments of the roots, as the exact model has them. *)
Lemma sph_norm_exact (n : Z) :
  (0 <= n)%Z ->
  sph_norm n = RtoC (/ sqrt (fact (2 * n + 2) * Rpower np_pi (1 / 2)
                             / (powerRZ 2 (2 * n + 3) * fact (n + 1)))).
Proof.
  intros Hn. unfold sph_norm. apply inv_csqrt_pos, sph_norm_arg_pos, Hn.
Qed.

Lemma cart_norm_exact (lx ly lz : Z) :
  (0 <= lx)%Z -> (0 <= ly)%Z -> (0 <= lz)%Z ->
  cart_norm lx ly lz
  = RtoC (/ sqrt (fact (2 * lx) * fact (2 * ly) * fact (2 * lz)
                  * Rpower np_pi (3 / 2)
                  / (powerRZ 2 (2 * (lx + ly + lz))
                     * fact lx * fact ly * fact lz))).
Proof.
  intros Hx Hy Hz. unfold cart_norm; cbv zeta.
  apply inv_csqrt_pos, cart_norm_arg_pos; assumption.
Qed.

Lemma sph_norm_double_value (n : Z) :
  (0 <= n <= 84)%Z ->
  let x := fact (2 * n + 2) * Rpower np_pi (1 / 2)
           / (powerRZ 2 (2 * n + 3) * fact (n + 1)) in
  Double.sph_norm n = Some (Finite (/ sqrt x), Finite 0) /\
  0 < / sqrt x < IZR overflow_threshold /\
  / IZR (2 ^ 171 * zfact 85) <= x.
Proof.
  intros Hn x.
  destruct (fact_bounds (2 * n + 2) 170 ltac:(lia)) as [Hf1 Hf2].
  destruct (fact_bounds (n + 1) 85 ltac:(lia)) as [Hg1 Hg2].
  destruct (two_pow_nonneg (2 * n + 3) 171 ltac:(lia) ltac:(lia))
    as [Ep Hp].
  pose proof sqrt_pi_bounds as Hpi.
  assert (Hnum : 1 <= fact (2 * n + 2) * Rpower np_pi (1 / 2)
                 <= IZR (zfact 170 * 2)).
  { rewrite mult_IZR. apply mul_bounds; [split; assumption | exact Hpi]. }
  assert (Hden : 1 <= powerRZ 2 (2 * n + 3) * fact (n + 1)
                 <= IZR (2 ^ 171 * zfact 85)).
  { rewrite mult_IZR. apply mul_bounds; [exact Hp | split; assumption]. }
  assert (HN : (zfact 170 * 2 < overflow_threshold)%Z)
    by (vm_compute; reflexivity).
  assert (HD : (2 ^ 171 * zfact 85 < overflow_threshold)%Z)
    by (vm_compute; reflexivity).
  destruct (inv_sqrt_value _ _ _ _ Hnum Hden HN HD) as [E [Hb [Hlo _]]].
  split; [| split; [exact Hb | exact Hlo]].
  unfold Double.sph_norm. rewrite Ep. cbn [bind].
  rewrite !fact_double_finite by lia.
  rewrite !dmul_finite; [exact E | |].
  - apply IZR_lt in HD. lra.
  - apply IZR_lt in HN. lra.
Qed.

Lemma cart_norm_double_value (lx ly lz : Z) :
  (0 <= lx)%Z -> (0 <= ly)%Z -> (0 <= lz)%Z -> (lx + ly + lz <= 85)%Z ->
  let x := fact (2 * lx) * fact (2 * ly) * fact (2 * lz)
           * Rpower np_pi (3 / 2)
           / (powerRZ 2 (2 * (lx + ly + lz)) * fact lx * fact ly * fact lz) in
  Double.cart_norm lx ly lz = Some (Finite (/ sqrt x), Finite 0) /\
  0 < / sqrt x < IZR overflow_threshold /\
  x <= IZR (zfact 170 * 8).
Proof.
  intros Hx Hy Hz Hl x.
  destruct (fact_bounds (2 * lx) 170 ltac:(lia)) as [Ha1 _].
  destruct (fact_bounds (2 * ly) 170 ltac:(lia)) as [Hb1 _].
  destruct (fact_bounds (2 * lz) 170 ltac:(lia)) as [Hc1 _].
  destruct (fact_bounds (2 * lx + 2 * ly) 170 ltac:(lia)) as [_ Hab].
  destruct (fact_bounds (2 * lx + 2 * ly + 2 * lz) 170 ltac:(lia))
    as [_ Habc].
  pose proof (fact_mul_le (2 * lx) (2 * ly) ltac:(lia) ltac:(lia)) as Mab.
  pose proof (fact_mul_le (2 * lx + 2 * ly) (2 * lz) ltac:(lia) ltac:(lia))
    as Mabc.
  destruct (fact_bounds lx 85 ltac:(lia)) as [Hu1 _].
  destruct (fact_bounds ly 85 ltac:(lia)) as [Hv1 _].
  destruct (fact_bounds lz 85 ltac:(lia)) as [Hw1 _].
  destruct (fact_bounds (lx + ly + lz) 85 ltac:(lia)) as [_ Huvw].
  pose proof (fact_mul_le lx ly Hx Hy) as Muv.
  pose proof (fact_mul_le (lx + ly) lz ltac:(lia) Hz) as Muvw.
  destruct (two_pow_nonneg (2 * (lx + ly + lz)) 170 ltac:(lia) ltac:(lia))
    as [Ep [Hp1 Hp2]].
  pose proof pi_three_halves_bounds as [Hpi1 Hpi2].
  assert (HN : (zfact 170 * 8 < overflow_threshold)%Z)
    by (vm_compute; reflexivity).
  assert (HD : (2 ^ 170 * zfact 85 < overflow_threshold)%Z)
    by (vm_compute; reflexivity).
  apply IZR_lt in HN as HN', HD as HD'. rewrite mult_IZR in HN', HD'.
  assert (HF1 : 1 <= IZR (zfact 170)) by (apply IZR_le, zfact_pos).
  assert (HG1 : 1 <= IZR (zfact 85)) by (apply IZR_le, zfact_pos).
  revert x.
  set (a := fact (2 * lx)) in *. set (b := fact (2 * ly)) in *.
  set (c := fact (2 * lz)) in *. set (u := fact lx) in *.
  set (v := fact ly) in *. set (w := fact lz) in *.
  set (P := powerRZ 2 (2 * (lx + ly + lz))) in *.
  set (p := Rpower np_pi (3 / 2)) in *.
  set (F := IZR (zfact 170)) in *. set (G := IZR (zfact 85)) in *.
  set (Q := IZR (2 ^ 170)) in *.
  remember (IZR overflow_threshold) as T eqn:ET.
  assert (Hab' : 1 <= a * b <= F) by (split; nra).
  assert (Habc' : 1 <= a * b * c <= F).
  { split; [nra |]. apply Rle_trans with (2 := Habc).
    apply Rle_trans with (2 := Mabc). nra. }
  assert (Huv' : 1 <= u * v) by nra.
  assert (Huvw' : 1 <= u * v * w <= G).
  { split; [nra |]. apply Rle_trans with (2 := Huvw).
    apply Rle_trans with (2 := Muvw). nra. }
  assert (Hnum : 1 <= a * b * c * p <= IZR (zfact 170 * 8)).
  { rewrite mult_IZR. apply mul_bounds; [exact Habc' | lra]. }
  assert (Hden : 1 <= P * u * v * w <= IZR (2 ^ 170 * zfact 85)).
  { rewrite mult_IZR. replace (P * u * v * w) with (P * (u * v * w)) by ring.
    apply mul_bounds; [split; assumption | exact Huvw']. }
  destruct (inv_sqrt_value _ _ _ _ Hnum Hden HN HD) as [E [Hb [_ Hhi]]].
  intros x. rewrite <- ET in Hb.
  split; [| split; [exact Hb | exact Hhi]].
  unfold Double.cart_norm. cbv zeta. rewrite Ep. cbn [bind].
  rewrite !fact_double_finite by lia.
  fold a b c u v w P p.
  assert (Huv_le : u <= u * v) by nra.
  assert (Huvw_le : u * v <= u * v * w) by nra.
  assert (HPu : 1 <= P * u <= Q * G) by (apply mul_bounds; lra).
  assert (HPuv : 1 <= P * u * v <= Q * G).
  { split; [nra |]. replace (P * u * v) with (P * (u * v)) by ring.
    apply Rle_trans with (P * (u * v * w)); [nra |].
    apply Rle_trans with (Q * (u * v * w)); nra. }
  rewrite mult_IZR in Hnum, Hden. fold F G in Hnum, Hden.
  fold Q in Hden.
  rewrite (dmul_finite a b) by (rewrite <- ET; nra).
  rewrite (dmul_finite (a * b) c) by (rewrite <- ET; nra).
  rewrite (dmul_finite (a * b * c) p) by (rewrite <- ET; lra).
  rewrite (dmul_finite P u) by (rewrite <- ET; lra).
  rewrite (dmul_finite (P * u) v) by (rewrite <- ET; lra).
  rewrite (dmul_finite (P * u * v) w) by (rewrite <- ET; lra).
  exact E.
Qed.

Lemma sqrt_lt_of_square (x t : R) :
  0 <= x -> 0 <= t -> x < t * t -> sqrt x < t.
Proof.
  intros Hx Ht H. rewrite <- (sqrt_square t) by exact Ht.
  apply sqrt_lt_1; [exact Hx | nra | exact H].
Qed.

Lemma norm_double_value (lx ly lz : Z) :
  (0 <= lx)%Z -> (0 <= ly)%Z -> (0 <= lz)%Z -> (lx + ly + lz <= 84)%Z ->
  exists r : R,
    0 < r /\ Double.norm lx ly lz = Some (Finite r, Finite 0) /\
    norm lx ly lz = RtoC r.
Proof.
  intros Hx Hy Hz Hl.
  destruct (sph_norm_double_value (lx + ly + lz) ltac:(lia))
    as [Es [[Hs0 HsT] Hslo]].
  destruct (cart_norm_double_value lx ly lz Hx Hy Hz ltac:(lia))
    as [Ec [[Hc0 HcT] Hchi]].
  pose proof (sph_norm_arg_pos (lx + ly + lz) ltac:(lia)) as HA.
  pose proof (cart_norm_arg_pos lx ly lz Hx Hy Hz) as HB.
  pose proof (sph_norm_exact (lx + ly + lz) ltac:(lia)) as Xs.
  pose proof (cart_norm_exact lx ly lz Hx Hy Hz) as Xc.
  set (x1 := fact (2 * (lx + ly + lz) + 2) * Rpower np_pi (1 / 2)
             / (powerRZ 2 (2 * (lx + ly + lz) + 3)
                * fact (lx + ly + lz + 1))) in *.
  set (x2 := fact (2 * lx) * fact (2 * ly) * fact (2 * lz)
             * Rpower np_pi (3 / 2)
             / (powerRZ 2 (2 * (lx + ly + lz)) * fact lx * fact ly * fact lz))
    in *.
  exists (/ sqrt x1 / / sqrt x2).
  split; [apply Rdiv_lt_0_compat; assumption |]. split.
  - unfold Double.norm. rewrite Es, Ec. cbn [bind].
    apply complex_div_real; [lra | lra |].
    assert (E : / sqrt x1 / / sqrt x2 = sqrt (x2 / x1)).
    { rewrite sqrt_div by lra. unfold Rdiv. rewrite Rinv_inv. ring. }
    rewrite E. pose proof threshold_gt_1 as H1.
    apply sqrt_lt_of_square; [left; apply Rdiv_lt_0_compat; assumption | lra |].
    apply Rle_lt_trans
      with (IZR (zfact 170 * 8) * IZR (2 ^ 171 * zfact 85)).
    + assert (Hi : / x1 <= IZR (2 ^ 171 * zfact 85)).
      { rewrite <- (Rinv_inv (IZR (2 ^ 171 * zfact 85))).
        apply Rinv_le_contravar; [| exact Hslo].
        apply Rinv_0_lt_compat, IZR_lt. vm_compute. reflexivity. }
      assert (0 < / x1) by (apply Rinv_0_lt_compat, HA).
      unfold Rdiv. apply Rmult_le_compat; lra.
    + rewrite <- !mult_IZR. apply IZR_lt. vm_compute. reflexivity.
  - unfold norm. rewrite Xs, Xc. apply RtoC_div.
    apply Rgt_not_eq. exact Hc0.
Qed.

(** Beyond the overflow. *)
Lemma complex_div_by_inf :
  complex_div (Finite 1, Finite 0) (PosInf, Finite 0)
  = Some (Finite 0, Finite 0).
Proof.
  pose proof threshold_gt_1 as H1.
  unfold complex_div. cbn [fst snd dabs dge is_zero ddiv].
  rewrite (dmul_finite 0 0) by (rewrite Rmult_0_l; lra).
  rewrite (dmul_finite 1 0) by (rewrite Rmult_0_r; lra).
  rewrite (dadd_finite 1 (0 * 0)) by lra.
  rewrite (dsub_finite 0 (1 * 0)) by lra.
  reflexivity.
Qed.

Lemma inf_times_pos (y : R) : 0 < y -> inf_times true y = PosInf.
Proof.
  intros Hy. unfold inf_times.
  destruct (Req_dec_T y 0) as [E | _]; [lra |].
  destruct (Rlt_dec 0 y) as [_ | n]; [reflexivity | contradiction].
Qed.

Lemma ddiv_inf_pos (y : R) : 0 < y -> ddiv PosInf (Finite y) = PosInf.
Proof.
  intros Hy. unfold ddiv.
  destruct (Rle_dec 0 y) as [_ | n]; [reflexivity | lra].
Qed.

Lemma complex_div_zero_by_zero :
  complex_div (Finite 0, Finite 0) (Finite 0, Finite 0) = None.
Proof.
  unfold complex_div. cbn [fst snd dabs dge is_zero]. rewrite Rabs_R0.
  destruct (Rle_dec 0 0) as [_ | n]; [| lra].
  destruct (Req_dec_T 0 0) as [_ | n]; [reflexivity | contradiction].
Qed.

Lemma dmul_inf_pos (y : R) : 0 < y -> dmul PosInf (Finite y) = PosInf.
Proof. intros Hy. cbn [dmul]. apply inf_times_pos, Hy. Qed.

(** From [n = 85] on [fact (2 n + 2)] is [inf], the root is [inf] and its
    reciprocal is [0j]. *)
Lemma sph_norm_double_overflow (n : Z) :
  (85 <= n <= 100)%Z -> Double.sph_norm n = Some (Finite 0, Finite 0).
Proof.
  intros Hn.
  destruct (two_pow_nonneg (2 * n + 3) 203 ltac:(lia) ltac:(lia))
    as [Ep [Hp1 Hp2]].
  destruct (fact_bounds (n + 1) 101 ltac:(lia)) as [Hf1 Hf2].
  assert (HD : (2 ^ 203 * zfact 101 < overflow_threshold)%Z)
    by (vm_compute; reflexivity).
  apply IZR_lt in HD. rewrite mult_IZR in HD.
  pose proof (mul_bounds _ _ _ _ (conj Hp1 Hp2) (conj Hf1 Hf2)) as Hden.
  unfold Double.sph_norm. rewrite Ep. cbn [bind].
  rewrite (fact_double_inf (2 * n + 2)) by lia.
  rewrite (fact_double_finite (n + 1)) by lia.
  rewrite dmul_inf_pos by apply Rpower_pos.
  rewrite dmul_finite by lra.
  rewrite ddiv_inf_pos by lra.
  cbn [cmath_sqrt]. apply complex_div_by_inf.
Qed.

(** From [lx = 86] on [fact (2 lx)] is [inf]. *)
Lemma cart_norm_double_overflow (lx : Z) :
  (86 <= lx <= 100)%Z -> Double.cart_norm lx 0 0 = Some (Finite 0, Finite 0).
Proof.
  intros Hl.
  destruct (two_pow_nonneg (2 * (lx + 0 + 0)) 200 ltac:(lia) ltac:(lia))
    as [Ep [Hp1 Hp2]].
  destruct (fact_bounds lx 100 ltac:(lia)) as [Hf1 Hf2].
  assert (HD : (2 ^ 200 * zfact 100 < overflow_threshold)%Z)
    by (vm_compute; reflexivity).
  apply IZR_lt in HD. rewrite mult_IZR in HD.
  pose proof (mul_bounds _ _ _ _ (conj Hp1 Hp2) (conj Hf1 Hf2)) as Hden.
  pose proof threshold_gt_1 as H1.
  unfold Double.cart_norm. cbv zeta. rewrite Ep. cbn [bind].
  rewrite (fact_double_inf (2 * lx)) by lia.
  rewrite (fact_double_finite lx) by lia.
  change (2 * 0)%Z with 0%Z.
  rewrite (fact_double_finite 0) by lia. rewrite fact_0.
  rewrite !dmul_inf_pos by (try apply Rpower_pos; lra).
  rewrite (dmul_finite _ (fact lx)) by lra.
  rewrite !dmul_finite by (rewrite ?Rmult_1_r; lra).
  rewrite ddiv_inf_pos by (rewrite ?Rmult_1_r; lra).
  cbn [cmath_sqrt]. apply complex_div_by_inf.
Qed.

(** C10, counterexample: [sph_norm(85)] and [cart_norm(86, 0, 0)] are [0j],
    not strictly positive, and [norm(86, 0, 0)] divides [0j] by [0j] and
    raises [ZeroDivisionError]. *)
Lemma norms_vanish_beyond_overflow :
  Double.sph_norm 85 = Some (Finite 0, Finite 0) /\
  Double.cart_norm 86 0 0 = Some (Finite 0, Finite 0) /\
  Double.norm 86 0 0 = None.
Proof.
  split; [apply sph_norm_double_overflow; lia |].
  split; [apply cart_norm_double_overflow; lia |].
  unfold Double.norm.
  rewrite (sph_norm_double_overflow (86 + 0 + 0)) by lia.
  rewrite (cart_norm_double_overflow 86) by lia.
  cbn [bind]. apply complex_div_zero_by_zero.
Qed.

(** C10, as the code has it: below the overflow of the factorials, that is
    for [0 <= n <= 84] and for non-negative exponents with
    [lx + ly + lz <= 85] ([<= 84] for [norm]), [sph_norm], [cart_norm] and
    [norm] return a complex number whose imaginary part is exactly zero and
    whose real part is strictly positive: the value of the exact model. *)
Theorem norms_real_and_positive_below_overflow (n lx ly lz : Z) :
  (0 <= n <= 84)%Z ->
  (0 <= lx)%Z -> (0 <= ly)%Z -> (0 <= lz)%Z -> (lx + ly + lz <= 85)%Z ->
  (exists r : R,
     0 < r /\ Double.sph_norm n = Some (Finite r, Finite 0) /\
     sph_norm n = RtoC r) /\
  (exists r : R,
     0 < r /\ Double.cart_norm lx ly lz = Some (Finite r, Finite 0) /\
     cart_norm lx ly lz = RtoC r) /\
  ((lx + ly + lz <= 84)%Z ->
   exists r : R,
     0 < r /\ Double.norm lx ly lz = Some (Finite r, Finite 0) /\
     norm lx ly lz = RtoC r).
Proof.
  intros Hn Hx Hy Hz Hl. split; [| split].
  - destruct (sph_norm_double_value n Hn) as [E [[H0 _] _]].
    eexists. split; [exact H0 |]. split; [exact E |].
    apply sph_norm_exact. lia.
  - destruct (cart_norm_double_value lx ly lz Hx Hy Hz Hl) as [E [[H0 _] _]].
    eexists. split; [exact H0 |]. split; [exact E |].
    apply cart_norm_exact; assumption.
  - intros Hl'. apply norm_double_value; assumption.
Qed.

Lemma norms_real_and_positive_below_overflow_witness :
  (exists r : R,
     0 < r /\ Double.sph_norm 84 = Some (Finite r, Finite 0) /\
     sph_norm 84 = RtoC r) /\
  (exists r : R,
     0 < r /\ Double.cart_norm 80 3 1 = Some (Finite r, Finite 0) /\
     cart_norm 80 3 1 = RtoC r) /\
  (exists r : R,
     0 < r /\ Double.norm 80 3 1 = Some (Finite r, Finite 0) /\
     norm 80 3 1 = RtoC r).
Proof.
  destruct (norms_real_and_positive_below_overflow 84 80 3 1)
    as [Hs [Hc Hn]]; try lia.
  split; [exact Hs | split; [exact Hc | apply Hn; lia]].
Defined.

(** ** The single coefficient *)

Lemma assert_passes (l m : Z) :
  (Z.abs m <= l)%Z -> negb ((- l <=? m) && (m <=? l))%Z = false.
Proof.
  intros H.
  destruct (Z.leb_spec (- l) m); destruct (Z.leb_spec m l);
    simpl; try reflexivity; lia.
Qed.

Lemma assert_fails (l m : Z) :
  (l < Z.abs m)%Z -> negb ((- l <=? m) && (m <=? l))%Z = true.
Proof.
  intros H.
  destruct (Z.leb_spec (- l) m); destruct (Z.leb_spec m l);
    simpl; try reflexivity; lia.
Qed.

(** The float [(lx + ly - |m|) / 2] is an integer exactly when
    [lx + ly - |m|] is even. *)
Lemma half_integral_iff_even (n : Z) :
  (exists q : Z, IZR n / 2 = IZR q) <-> Z.odd n = false.
Proof.
  split.
  - intros [q Hq].
    assert (E : IZR n = IZR (2 * q)) by (rewrite mult_IZR; lra).
    apply eq_IZR in E. subst n.
    rewrite Z.odd_mul. reflexivity.
  - intros Hodd. exists (n / 2)%Z.
    rewrite <- Z.negb_even in Hodd. apply negb_false_iff in Hodd.
    apply Z.even_spec in Hodd. destruct Hodd as [q ->].
    rewrite (Z.mul_comm 2 q), Z.div_mul by lia.
    rewrite mult_IZR. field.
Qed.

(** C3: the selection rule.  For non-negative [lx], [ly], [lz] and
    [|m| <= lx + ly + lz], when [lx + ly - |m|] is odd, which is when
    [j = (lx + ly - |m|) / 2] is not an integer, [cart2sph_coeff] returns
    exactly [0], with [normalized] true as well as false. *)
Theorem selection_rule_zero (lx ly lz m : Z) (normalized : bool) :
  (0 <= lx)%Z -> (0 <= ly)%Z -> (0 <= lz)%Z ->
  (Z.abs m <= lx + ly + lz)%Z ->
  Z.odd (lx + ly - Z.abs m) = true ->
  (~ exists q : Z, IZR (lx + ly - Z.abs m) / 2 = IZR q) /\
  cart2sph_coeff lx ly lz m normalized = Some Czero.
Proof.
  intros _ _ _ Hm Hodd. split.
  - intros Hq. apply half_integral_iff_even in Hq. congruence.
  - unfold cart2sph_coeff. cbv zeta.
    rewrite (assert_passes _ _ Hm), Hodd. reflexivity.
Qed.

Lemma selection_rule_zero_witness :
  (~ exists q : Z, IZR (2 + 1 - Z.abs 2) / 2 = IZR q) /\
  cart2sph_coeff 2 1 0 2 false = Some Czero.
Proof. apply (selection_rule_zero 2 1 0 2 false); simpl; (lia || reflexivity). Defined.



(** C7, as the code has it: [cart2sph_coeff] raises for every [m] with
    [|m| > lx + ly + lz], whatever the signs of [lx], [ly] and [lz]; the
    assertion on [m] is the only check it makes. *)
Theorem raises_when_m_out_of_range (lx ly lz m : Z) (normalized : bool) :
  (lx + ly + lz < Z.abs m)%Z ->
  cart2sph_coeff lx ly lz m normalized = None.
Proof.
  intros Hm. unfold cart2sph_coeff. cbv zeta.
  rewrite (assert_fails _ _ Hm). reflexivity.
Qed.

Lemma raises_when_m_out_of_range_witness :
  cart2sph_coeff 1 0 1 (-3) true = None.
Proof. apply (raises_when_m_out_of_range 1 0 1 (-3) true); simpl; lia. Defined.

(** C7 as stated fails: with the negative [lx = -1] and [ly = 0], [lz = 1],
    [m = 0] the assertion [-0 <= 0 <= 0] passes, [j = -0.5] is not an
    integer, and the function returns [0] instead of raising. *)
Lemma negative_lx_returns_zero :
  (-1 < 0)%Z /\
  cart2sph_coeff (-1) 0 1 0 true = Some Czero /\
  cart2sph_coeff (-1) 0 1 0 false = Some Czero.
Proof. repeat split. Qed.

Lemma csqrt_1 : csqrt (RtoC 1) = Cone.
Proof. rewrite csqrt_RtoC_nonneg by lra. rewrite sqrt_1. reflexivity. Qed.

(** C9: the single normalized coefficient for [l = 0] is exactly [1]. *)
Theorem coeff_l0_is_one : cart2sph_coeff 0 0 0 0 true = Some Cone.
Proof.
  unfold cart2sph_coeff. cbv zeta.
  change (0 + 0 + 0)%Z with 0%Z. change (Z.abs 0) with 0%Z.
  change (0 + 0 - 0)%Z with 0%Z. change (0 - 0)%Z with 0%Z.
  change (Z.quot 0 2) with 0%Z. change (0 / 2 + 1)%Z with 1%Z.
  change (range 1) with [0%Z].
  unfold fold_left at 1, i_step. cbv zeta.
  change (range (0 + 1)) with [0%Z].
  unfold fold_left, k_step. cbv zeta.
  change (Z.abs 0) with 0%Z.
  change (2 * 0 - 2 * 0)%Z with 0%Z. change (0 - 2 * 0)%Z with 0%Z.
  change (2 * 0)%Z with 0%Z. change (0 + 0)%Z with 0%Z.
  change (powerRZ (-1) 0) with 1. change (powerRZ 2 0) with 1.
  simpl negb. cbv iota.
  rewrite !binom_0_0, !fact_0.
  change (IZR ((if (0 <=? 0)%Z then 1%Z else (-1)%Z) * (0 - 0 + 0))) with 0.
  change (Z.odd 0) with false. cbv iota.
  replace (0 / 2) with 0 by field. rewrite pow_neg1_0.
  replace (1 * 1 * 1 * 1 * 1 / (1 * 1 * 1 * 1 * 1)) with 1 by field.
  rewrite csqrt_1. f_equal.
  apply complex_eq; simpl; field.
Qed.

(** ** The loops as sums *)

Lemma fold_left_k_step (lx m sign j : Z) (ks : list Z) (a : complex) :
  fold_left (k_step lx m sign j) ks a =
  (a + fold_right (fun k acc => k_step lx m sign j Czero k + acc) Czero ks)%C.
Proof.
  revert a. induction ks as [| k ks IH]; intros a; cbn [fold_left fold_right].
  - symmetry; apply Cadd_0_r.
  - rewrite IH, Cadd_assoc. f_equal.
    unfold k_step. cbv zeta. rewrite Cadd_0_l. reflexivity.
Qed.

Lemma fold_left_i_step (lx l m sign j lmm : Z) (xs : list Z) (a : complex) :
  fold_left (i_step lx l m sign j lmm) xs a =
  (a + fold_right (fun i acc => i_step lx l m sign j lmm Czero i + acc)
                  Czero xs)%C.
Proof.
  revert a. induction xs as [| i xs IH]; intros a; cbn [fold_left fold_right].
  - symmetry; apply Cadd_0_r.
  - rewrite IH, Cadd_assoc. f_equal.
    unfold i_step. cbv zeta. rewrite Cadd_0_l. reflexivity.
Qed.

Lemma fold_right_Cadd_ext (f g : Z -> complex) (xs : list Z) :
  (forall i, In i xs -> f i = g i) ->
  fold_right (fun i acc => f i + acc)%C Czero xs =
  fold_right (fun i acc => g i + acc)%C Czero xs.
Proof.
  induction xs as [| x xs IH]; intros H; simpl; [reflexivity |].
  rewrite (H x (or_introl eq_refl)), IH; [reflexivity |].
  intros i Hi; apply H; right; exact Hi.
Qed.

Lemma powerRZ_pow (x : R) (n : Z) : (0 <= n)%Z -> powerRZ x n = x ^ Z.to_nat n.
Proof.
  intros Hn. rewrite pow_powerRZ, Z2Nat.id by exact Hn. reflexivity.
Qed.

Lemma quot_2_even (n : Z) : Z.odd n = false -> Z.quot n 2 = (n / 2)%Z.
Proof.
  intros Hodd. rewrite <- Z.negb_even in Hodd. apply negb_false_iff in Hodd.
  apply Z.even_spec in Hodd. destruct Hodd as [q ->].
  rewrite (Z.mul_comm 2 q), Z.quot_mul, Z.div_mul by lia. reflexivity.
Qed.

(** The sign used by the loop and the mathematical sign give the same
    term: they differ at [m = 0] only, where the term has the factor
    [binom 0 (lx - 2 k)], zero unless the exponent is zero. *)
Lemma k_term_sign (lx m j k : Z) :
  k_step lx m (if (0 <=? m)%Z then 1%Z else (-1)%Z) j Czero k =
  (pow_neg1 (IZR (Z.sgn m * (Z.abs m - lx + 2 * k)) / 2)
   * RtoC (choose j k * choose (Z.abs m) (lx - 2 * k)))%C.
Proof.
  unfold k_step. cbv zeta. rewrite Cadd_0_l, !binom_choose.
  destruct (Z.eq_dec m 0) as [-> | Hm].
  - change (Z.abs 0) with 0%Z. change (0 <=? 0)%Z with true. cbv iota.
    destruct (Z.eq_dec (lx - 2 * k) 0) as [E | E].
    + replace (0 - lx + 2 * k)%Z with 0%Z by lia.
      rewrite !Z.mul_0_r. cx_ring.
    + replace (choose 0 (lx - 2 * k)) with 0.
      * cx_ring.
      * rewrite <- binom_choose. symmetry. apply binom_out_of_range. lia.
  - replace (if (0 <=? m)%Z then 1%Z else (-1)%Z) with (Z.sgn m).
    + cx_ring.
    + destruct (Z.leb_spec 0 m); [apply Z.sgn_pos | apply Z.sgn_neg]; lia.
Qed.

Lemma k_sum_closed (lx m j : Z) :
  fold_left (k_step lx m (if (0 <=? m)%Z then 1%Z else (-1)%Z) j)
            (range (j + 1)) Czero
  = spec_k_sum lx m j.
Proof.
  rewrite fold_left_k_step, Cadd_0_l. unfold spec_k_sum, Csum.
  apply fold_right_Cadd_ext. intros k _. apply k_term_sign.
Qed.

Lemma i_term_closed (lx l m j i : Z) :
  (Z.abs m <= l)%Z -> (0 <= i <= (l - Z.abs m) / 2)%Z ->
  i_step lx l m (if (0 <=? m)%Z then 1%Z else (-1)%Z) j (l - Z.abs m) Czero i =
  (RtoC (spec_i_fact l m j i) * spec_k_sum lx m j)%C.
Proof.
  intros Hm Hi.
  assert (H2 : (2 * ((l - Z.abs m) / 2) <= l - Z.abs m)%Z)
    by (apply Z.mul_div_le; lia).
  unfold i_step. cbv zeta. rewrite Cadd_0_l, k_sum_closed.
  unfold spec_i_fact. rewrite !binom_choose, powerRZ_pow by lia.
  rewrite !fact_factorial by lia. reflexivity.
Qed.

Lemma prefactor_arg_pos (lx ly lz m : Z) :
  (0 <= lx)%Z -> (0 <= ly)%Z -> (0 <= lz)%Z ->
  (Z.abs m <= lx + ly + lz)%Z ->
  0 < fact (2 * lx) * fact (2 * ly) * fact (2 * lz)
      * fact (lx + ly + lz) * fact (lx + ly + lz - Z.abs m)
      / (fact (2 * (lx + ly + lz)) * fact lx * fact ly * fact lz
         * fact (lx + ly + lz + Z.abs m)).
Proof.
  intros Hx Hy Hz Hm. auto 12 with positivity.
Qed.

(** C1: for non-negative [lx], [ly], [lz] and [|m| <= l] with
    [j = (lx + ly - |m|) / 2] an integer, the normalized coefficient
    computed by the two loops of [cart2sph_coeff] is the closed-form
    double sum of the specification times its prefactor. *)
Theorem coeff_is_closed_form (lx ly lz m : Z) :
  (0 <= lx)%Z -> (0 <= ly)%Z -> (0 <= lz)%Z ->
  (Z.abs m <= lx + ly + lz)%Z ->
  Z.even (lx + ly - Z.abs m) = true ->
  cart2sph_coeff lx ly lz m true = Some (closed_form lx ly lz m).
Proof.
  intros Hx Hy Hz Hm Hev.
  assert (Hodd : Z.odd (lx + ly - Z.abs m) = false)
    by (rewrite <- Z.negb_even, Hev; reflexivity).
  pose proof (prefactor_arg_pos lx ly lz m Hx Hy Hz Hm) as Hpos.
  unfold cart2sph_coeff. cbv zeta.
  rewrite (assert_passes _ _ Hm), Hodd, (quot_2_even _ Hodd).
  simpl negb. cbv iota. f_equal. unfold closed_form. cbv zeta.
  rewrite fold_left_i_step, Cadd_0_l.
  rewrite csqrt_RtoC_nonneg by lra.
  rewrite <- Cmul_assoc, RtoC_mul. f_equal.
  - unfold Csum. apply fold_right_Cadd_ext. intros i Hi.
    apply in_range in Hi. apply i_term_closed; lia.
  - f_equal. unfold spec_prefactor. cbv zeta.
    rewrite powerRZ_pow by lia. rewrite !fact_factorial by lia.
    unfold Rdiv. ring.
Qed.

Lemma coeff_is_closed_form_witness :
  cart2sph_coeff 2 1 1 (-1) true = Some (closed_form 2 1 1 (-1)).
Proof.
  apply (coeff_is_closed_form 2 1 1 (-1)); simpl; (lia || reflexivity).
Defined.

(** ** Conjugation symmetry in [m] *)

Lemma Cconj_0 : Cconj Czero = Czero.
Proof. cx_ring. Qed.

Section Conjugation.

(** The arguments the two loops do not change. *)
Variables lx l m j lmm : Z.

Lemma k_step_conj (s : Z) (a : complex) (k : Z) :
  k_step lx m (- s) j (Cconj a) k = Cconj (k_step lx m s j a k).
Proof.
  unfold k_step. cbv zeta.
  replace (IZR (- s * (Z.abs m - lx + 2 * k)) / 2)
    with (- (IZR (s * (Z.abs m - lx + 2 * k)) / 2)).
  - rewrite pow_neg1_opp, Cconj_add, !Cconj_mul, !Cconj_RtoC. reflexivity.
  - rewrite Z.mul_opp_l, opp_IZR. unfold Rdiv. ring.
Qed.

Lemma fold_left_k_step_conj (s : Z) (ks : list Z) (a : complex) :
  fold_left (k_step lx m (- s) j) ks (Cconj a) =
  Cconj (fold_left (k_step lx m s j) ks a).
Proof.
  revert a. induction ks as [| k ks IH]; intros a; cbn [fold_left].
  - reflexivity.
  - rewrite k_step_conj. apply IH.
Qed.

Lemma i_step_conj (s : Z) (a : complex) (i : Z) :
  i_step lx l m (- s) j lmm (Cconj a) i = Cconj (i_step lx l m s j lmm a i).
Proof.
  unfold i_step. cbv zeta.
  rewrite <- Cconj_0 at 1. rewrite fold_left_k_step_conj.
  rewrite Cconj_add, Cconj_mul, Cconj_RtoC. reflexivity.
Qed.

Lemma fold_left_i_step_conj (s : Z) (xs : list Z) (a : complex) :
  fold_left (i_step lx l m (- s) j lmm) xs (Cconj a) =
  Cconj (fold_left (i_step lx l m s j lmm) xs a).
Proof.
  revert a. induction xs as [| i xs IH]; intros a; cbn [fold_left].
  - reflexivity.
  - rewrite i_step_conj. apply IH.
Qed.

Lemma fold_left_i_step_conj_0 (s : Z) (xs : list Z) :
  fold_left (i_step lx l m (- s) j lmm) xs Czero =
  Cconj (fold_left (i_step lx l m s j lmm) xs Czero).
Proof.
  rewrite <- fold_left_i_step_conj, Cconj_0. reflexivity.
Qed.

End Conjugation.

Lemma i_step_opp_m (lx l m s j lmm : Z) :
  i_step lx l (- m) s j lmm = i_step lx l m s j lmm.
Proof. unfold i_step, k_step. rewrite Z.abs_opp. reflexivity. Qed.

(** The coefficients of [m] and [-m] are complex conjugates. *)
Lemma cart2sph_coeff_opp (lx ly lz m : Z) (normalized : bool) :
  (0 <= lx)%Z -> (0 <= ly)%Z -> (0 <= lz)%Z ->
  (Z.abs m <= lx + ly + lz)%Z -> m <> 0%Z ->
  cart2sph_coeff lx ly lz (- m) normalized =
  option_map Cconj (cart2sph_coeff lx ly lz m normalized).
Proof.
  intros Hx Hy Hz Hm Hm0.
  pose proof (prefactor_arg_pos lx ly lz m Hx Hy Hz Hm) as Hpos.
  destruct (norm_real lx ly lz Hx Hy Hz) as [r [Hr Er]].
  unfold cart2sph_coeff. cbv zeta. rewrite Z.abs_opp.
  rewrite (assert_passes _ m Hm), (assert_passes _ (- m)) by (rewrite Z.abs_opp; exact Hm).
  destruct (Z.odd (lx + ly - Z.abs m)); cbn [option_map].
  - rewrite Cconj_0. reflexivity.
  - f_equal.
    replace (if (0 <=? - m)%Z then 1%Z else (-1)%Z)
      with (- (if (0 <=? m)%Z then 1 else -1))%Z
      by (destruct (Z.leb_spec 0 m); destruct (Z.leb_spec 0 (- m)); lia).
    rewrite i_step_opp_m, fold_left_i_step_conj_0.
    rewrite csqrt_RtoC_nonneg by lra. rewrite Er.
    destruct normalized; cbn [negb].
    + rewrite !Cconj_mul, !Cconj_RtoC. reflexivity.
    + rewrite Cconj_div, !Cconj_mul, !Cconj_RtoC. reflexivity.
Qed.

(** ** Real entries *)

Lemma Im_add (a b : complex) : Im a = 0 -> Im b = 0 -> Im (a + b)%C = 0.
Proof. intros Ha Hb. simpl. rewrite Ha, Hb. ring. Qed.

Lemma Im_mul (a b : complex) : Im a = 0 -> Im b = 0 -> Im (a * b)%C = 0.
Proof. intros Ha Hb. simpl. rewrite Ha, Hb. ring. Qed.

Lemma Im_div (a b : complex) : Im a = 0 -> Im b = 0 -> Im (a / b)%C = 0.
Proof. intros Ha Hb. simpl. rewrite Ha, Hb. unfold Rdiv. ring. Qed.

Lemma k_step_m0_real (lx s j : Z) (a : complex) (k : Z) :
  Im a = 0 -> Im (k_step lx 0 s j a k) = 0.
Proof.
  intros Ha. unfold k_step. cbv zeta. change (Z.abs 0) with 0%Z.
  apply Im_add; [exact Ha |].
  destruct (Z.eq_dec (lx - 2 * k) 0) as [E | E].
  - replace (0 - lx + 2 * k)%Z with 0%Z by lia.
    rewrite Z.mul_0_r. replace (0 / 2) with 0 by field.
    rewrite pow_neg1_0. simpl. ring.
  - rewrite (binom_out_of_range 0 (lx - 2 * k)) by lia. simpl. ring.
Qed.

Lemma fold_left_k_step_m0_real (lx s j : Z) (ks : list Z) (a : complex) :
  Im a = 0 -> Im (fold_left (k_step lx 0 s j) ks a) = 0.
Proof.
  revert a. induction ks as [| k ks IH]; intros a Ha; cbn [fold_left].
  - exact Ha.
  - apply IH, k_step_m0_real, Ha.
Qed.

Lemma fold_left_i_step_m0_real (lx l s j lmm : Z) (xs : list Z) (a : complex) :
  Im a = 0 -> Im (fold_left (i_step lx l 0 s j lmm) xs a) = 0.
Proof.
  revert a. induction xs as [| i xs IH]; intros a Ha; cbn [fold_left].
  - exact Ha.
  - apply IH. unfold i_step. cbv zeta.
    apply Im_add; [exact Ha |]. apply Im_mul; [reflexivity |].
    apply fold_left_k_step_m0_real. reflexivity.
Qed.

(** The coefficient of [m = 0] is real. *)
Lemma cart2sph_coeff_m0_real (lx ly lz : Z) (normalized : bool) :
  (0 <= lx)%Z -> (0 <= ly)%Z -> (0 <= lz)%Z ->
  exists z : complex,
    cart2sph_coeff lx ly lz 0 normalized = Some z /\ Im z = 0.
Proof.
  intros Hx Hy Hz.
  assert (Hm : (Z.abs 0 <= lx + ly + lz)%Z) by (simpl; lia).
  pose proof (prefactor_arg_pos lx ly lz 0 Hx Hy Hz Hm) as Hpos.
  destruct (norm_real lx ly lz Hx Hy Hz) as [r [Hr Er]].
  unfold cart2sph_coeff. cbv zeta. rewrite (assert_passes _ _ Hm).
  destruct (Z.odd (lx + ly - Z.abs 0)).
  - exists Czero. split; reflexivity.
  - eexists. split; [reflexivity |].
    rewrite csqrt_RtoC_nonneg by lra.
    assert (Hs : Im (fold_left
                       (i_step lx (lx + ly + lz) 0
                          (if (0 <=? 0)%Z then 1%Z else (-1)%Z)
                          (Z.quot (lx + ly - Z.abs 0) 2)
                          (lx + ly + lz - Z.abs 0))
                       (range ((lx + ly + lz - Z.abs 0) / 2 + 1)) Czero) = 0)
      by (apply fold_left_i_step_m0_real; reflexivity).
    destruct normalized; cbn [negb].
    + repeat apply Im_mul; auto.
    + rewrite Er. apply Im_div; [| reflexivity]. repeat apply Im_mul; auto.
Qed.

Lemma cart2sph_coeff_returns (lx ly lz m : Z) (normalized : bool) :
  (Z.abs m <= lx + ly + lz)%Z ->
  exists z : complex, cart2sph_coeff lx ly lz m normalized = Some z.
Proof.
  intros Hm. unfold cart2sph_coeff. cbv zeta. rewrite (assert_passes _ _ Hm).
  destruct (Z.odd (lx + ly - Z.abs m)); eexists; reflexivity.
Qed.

(** Every entry of the assembled matrix exists, and is real when the real
    combination is requested. *)
Lemma m_entry_returns (lx ly lz m : Z) (real normalized : bool) :
  (0 <= lx)%Z -> (0 <= ly)%Z -> (0 <= lz)%Z ->
  (Z.abs m <= lx + ly + lz)%Z ->
  exists z : complex,
    m_entry lx ly lz m real normalized = Some z /\ (real = true -> Im z = 0).
Proof.
  intros Hx Hy Hz Hm. unfold m_entry.
  destruct (Z.eqb_spec m 0) as [-> | Hm0].
  - destruct (cart2sph_coeff_m0_real lx ly lz normalized Hx Hy Hz)
      as [z [Ez Hz0]].
    rewrite Ez. cbn [bind]. rewrite andb_false_r. eauto.
  - destruct (cart2sph_coeff_returns lx ly lz m normalized Hm) as [c Ec].
    rewrite Ec. cbn [bind negb]. rewrite andb_true_r.
    destruct real; [| exists c; split; [reflexivity | discriminate]].
    rewrite (cart2sph_coeff_opp lx ly lz m normalized Hx Hy Hz Hm Hm0), Ec.
    cbn [option_map bind]. eexists; split; [reflexivity |]. intros _.
    destruct (Z.ltb_spec m 0) as [Hneg | Hpos].
    + change (IZR (1 * 2)) with 2. rewrite csqrt_RtoC_nonneg by lra.
      simpl. unfold Rdiv. ring.
    + replace (IZR (-1 * 2)) with (Ropp 2) by (simpl; lra).
      rewrite csqrt_RtoC_neg by lra.
      simpl. unfold Rdiv. ring.
Qed.

(** ** Matrix assembly *)

Lemma mapM_Forall2 {A B : Type} (f : A -> option B) (P : A -> B -> Prop)
  (xs : list A) :
  (forall x, In x xs -> exists y, f x = Some y /\ P x y) ->
  exists ys, mapM f xs = Some ys /\ Forall2 P xs ys.
Proof.
  induction xs as [| x xs IH]; intros H; cbn [mapM].
  - exists []. split; [reflexivity | constructor].
  - destruct (H x (or_introl eq_refl)) as [y [Ey Py]].
    destruct IH as [ys [Eys Pys]]; [intros; apply H; right; assumption |].
    exists (y :: ys). rewrite Ey, Eys. split; [reflexivity |].
    constructor; assumption.
Qed.

Lemma in_canonical_order (l lx ly lz : Z) :
  In (lx, ly, lz) (canonical_order l) <->
  (0 <= lx)%Z /\ (0 <= ly)%Z /\ (0 <= lz)%Z /\ (lx + ly + lz = l)%Z.
Proof.
  unfold canonical_order. rewrite in_flat_map. split.
  - intros [i [Hi Ht]]. apply in_range in Hi.
    apply in_map_iff in Ht. destruct Ht as [n [E Hn]].
    apply in_range in Hn. inversion E; subst. lia.
  - intros (Hx & Hy & Hz & Hl). exists (l - lx)%Z. split.
    + apply in_range. lia.
    + apply in_map_iff. exists lz. split.
      * repeat (f_equal; try lia).
      * apply in_range. lia.
Qed.

Lemma all_coeffs_returns (l : Z) (real normalized : bool) :
  exists C : matrix,
    all_coeffs l real normalized = Some C /\
    Forall2 (fun t row =>
               Forall2 (fun m z =>
                          m_entry (fst (fst t)) (snd (fst t)) (snd t) m
                                  real normalized = Some z /\
                          (real = true -> Im z = 0))
                       (range2 (- l) (l + 1)) row)
            (canonical_order l) C.
Proof.
  unfold all_coeffs. apply mapM_Forall2.
  intros [[lx ly] lz] Ht. apply in_canonical_order in Ht.
  destruct Ht as (Hx & Hy & Hz & Hl).
  apply mapM_Forall2. intros m Hm. apply in_range2 in Hm.
  cbn [fst snd].
  destruct (m_entry_returns lx ly lz m real normalized Hx Hy Hz ltac:(lia))
    as [z Hz0].
  exists z. tauto.
Qed.

(** ** The assertion and the cast to real *)

Lemma np_iscomplex_false (z : complex) : Im z = 0 -> np_iscomplex z = false.
Proof.
  intros H. unfold np_iscomplex.
  destruct (Req_dec_T (Im z) 0); [reflexivity | contradiction].
Qed.

Lemma np_iscomplex_true (z : complex) : Im z <> 0 -> np_iscomplex z = true.
Proof.
  intros H. unfold np_iscomplex.
  destruct (Req_dec_T (Im z) 0); [contradiction | reflexivity].
Qed.

Lemma np_real_id (z : complex) : Im z = 0 -> np_real z = z.
Proof. intros H. apply complex_eq; simpl; congruence. Qed.

(** The assertion passes as soon as one entry is real. *)
Lemma not_iscomplex_all_one_real (C : matrix) (row : list complex)
  (z : complex) :
  In row C -> In z row -> Im z = 0 -> not_iscomplex_all C = true.
Proof.
  intros Hrow Hz Him. unfold not_iscomplex_all.
  destruct (forallb (forallb np_iscomplex) C) eqn:E; [| reflexivity].
  rewrite forallb_forall in E. specialize (E row Hrow).
  rewrite forallb_forall in E. specialize (E z Hz).
  rewrite (np_iscomplex_false z Him) in E. discriminate.
Qed.

Lemma map_np_real_id (C : matrix) :
  Forall (Forall (fun z => Im z = 0)) C -> map (map np_real) C = C.
Proof.
  intros H. induction H as [| row C Hrow _ IH]; cbn [map]; [reflexivity |].
  rewrite IH. f_equal.
  induction Hrow as [| z row Hz _ IHrow]; cbn [map]; [reflexivity |].
  rewrite IHrow, (np_real_id z Hz). reflexivity.
Qed.

(** ** Shapes *)

Lemma length_flat_map_sum {A B : Type} (f : A -> list B) (xs : list A) :
  length (flat_map f xs) = list_sum (map (fun x => length (f x)) xs).
Proof.
  induction xs as [| x xs IH]; cbn [flat_map map list_sum]; [reflexivity |].
  rewrite length_app, IH. reflexivity.
Qed.

Lemma triangle_sum (n : nat) :
  (2 * list_sum (map (fun i => Z.to_nat (i + 1)) (map Z.of_nat (seq 0 n)))
   = n * (n + 1))%nat.
Proof.
  induction n as [| n IH]; [reflexivity |].
  rewrite seq_S, !map_app, list_sum_app. cbn [map Nat.add].
  replace (Z.to_nat (Z.of_nat n + 1)) with (S n) by lia.
  change (list_sum [S n]) with (S n + 0)%nat. nia.
Qed.

Lemma length_canonical_order (l : Z) :
  (0 <= l)%Z ->
  Z.of_nat (length (canonical_order l)) = ((l + 1) * (l + 2) / 2)%Z.
Proof.
  intros Hl. unfold canonical_order. rewrite length_flat_map_sum.
  rewrite (map_ext _ (fun i => Z.to_nat (i + 1)))
    by (intros i; rewrite length_map; apply length_range).
  unfold range. pose proof (triangle_sum (Z.to_nat (l + 1))) as H.
  apply Z.div_unique_exact; [lia |]. nia.
Qed.

Lemma Forall2_nth {A B : Type} (P : A -> B -> Prop) (xs : list A)
  (ys : list B) (dx : A) (dy : B) :
  Forall2 P xs ys ->
  forall i, (i < length xs)%nat -> P (nth i xs dx) (nth i ys dy).
Proof.
  induction 1 as [| x y xs ys Hxy _ IH]; intros i Hi; cbn [length] in Hi.
  - lia.
  - destruct i as [| i]; cbn [nth]; [exact Hxy | apply IH; lia].
Qed.

Lemma nth_map_seq {A : Type} (f : nat -> A) (w r : nat) (d : A) :
  (r < w)%nat -> nth r (map f (seq 0 w)) d = f r.
Proof.
  intros Hr. rewrite (nth_indep _ d (f 0%nat))
    by (rewrite length_map, length_seq; exact Hr).
  rewrite map_nth, seq_nth by exact Hr. reflexivity.
Qed.

Lemma nth_range2 (a b : Z) (r : nat) :
  (r < Z.to_nat (b - a))%nat -> nth r (range2 a b) 0%Z = (a + Z.of_nat r)%Z.
Proof.
  intros Hr. unfold range2, range. rewrite map_map.
  apply (nth_map_seq (fun k => (a + Z.of_nat k)%Z)). exact Hr.
Qed.

Lemma canonical_order_nonempty (l : Z) :
  (0 <= l)%Z -> (0 < length (canonical_order l))%nat.
Proof.
  intros Hl. pose proof (length_canonical_order l Hl) as H.
  assert (1 <= (l + 1) * (l + 2) / 2)%Z
    by (apply Z.div_le_lower_bound; nia).
  lia.
Qed.

(** The matrix [C.T] of a rectangular non-empty [C]. *)
Lemma transpose_entries (C : matrix) (w : nat) :
  (0 < length C)%nat ->
  (forall c, (c < length C)%nat -> length (nth c C []) = w) ->
  length (transpose C) = w /\
  forall r, (r < w)%nat ->
    length (nth r (transpose C) []) = length C /\
    forall c, (c < length C)%nat ->
      nth c (nth r (transpose C) []) Czero = nth r (nth c C []) Czero.
Proof.
  intros Hne Hw. destruct C as [| row0 rest]; [cbn in Hne; lia |].
  pose proof (Hw 0%nat Hne) as Hw0. cbn [nth] in Hw0.
  unfold transpose. rewrite Hw0. split.
  - rewrite length_map, length_seq. reflexivity.
  - intros r Hr. rewrite nth_map_seq by exact Hr. split.
    + apply length_map.
    + intros c Hc.
      rewrite (nth_indep _ Czero (nth r [] Czero))
        by (rewrite length_map; exact Hc).
      apply (map_nth (fun row => nth r row Czero)).
Qed.

(** The assembled matrix, entry by entry. *)
Lemma all_coeffs_entries (l : Z) (real normalized : bool) :
  (0 <= l)%Z ->
  exists C : matrix,
    all_coeffs l real normalized = Some C /\
    length C = length (canonical_order l) /\
    forall c, (c < length C)%nat ->
      length (nth c C []) = Z.to_nat (2 * l + 1) /\
      forall r, (r < Z.to_nat (2 * l + 1))%nat ->
        let t := nth c (canonical_order l) (0, 0, 0)%Z in
        m_entry (fst (fst t)) (snd (fst t)) (snd t) (- l + Z.of_nat r)
                real normalized
        = Some (nth r (nth c C []) Czero) /\
        (real = true -> Im (nth r (nth c C []) Czero) = 0).
Proof.
  intros Hl. destruct (all_coeffs_returns l real normalized) as [C [EC HC]].
  exists C. split; [exact EC |].
  pose proof (Forall2_length HC) as Hlen. split; [symmetry; exact Hlen |].
  intros c Hc. rewrite <- Hlen in Hc.
  pose proof (Forall2_nth _ _ _ (0, 0, 0)%Z [] HC c Hc) as Hrow.
  cbv beta in Hrow. pose proof (Forall2_length Hrow) as Hlen'.
  rewrite length_range2 in Hlen'.
  replace (l + 1 - - l)%Z with (2 * l + 1)%Z in Hlen' by lia.
  split; [symmetry; exact Hlen' |].
  intros r Hr.
  pose proof (Forall2_nth _ _ _ 0%Z Czero Hrow r) as He.
  rewrite length_range2, nth_range2 in He
    by (replace (l + 1 - - l)%Z with (2 * l + 1)%Z by lia; exact Hr).
  apply He. replace (l + 1 - - l)%Z with (2 * l + 1)%Z by lia. exact Hr.
Qed.

(** [cart2sph_coeffs_for] returns the transposed assembled matrix: the
    assertion passes and the cast to real changes nothing. *)
Lemma cart2sph_coeffs_for_returns (l : Z) (real normalized : bool) :
  (0 <= l)%Z ->
  exists C : matrix,
    all_coeffs l real normalized = Some C /\
    cart2sph_coeffs_for l real normalized = Some (transpose C).
Proof.
  intros Hl.
  destruct (all_coeffs_entries l real normalized Hl) as [C (EC & Hlen & HC)].
  exists C. split; [exact EC |].
  unfold cart2sph_coeffs_for. rewrite EC. cbn [bind].
  destruct real; [| reflexivity].
  pose proof (canonical_order_nonempty l Hl) as Hne. rewrite <- Hlen in Hne.
  assert (Hreal : Forall (Forall (fun z => Im z = 0)) C).
  { apply Forall_forall. intros row Hrow. apply Forall_forall. intros z Hz.
    destruct (In_nth _ _ [] Hrow) as [c [Hc <-]].
    destruct (HC c Hc) as [Hw He].
    destruct (In_nth _ _ Czero Hz) as [r [Hr <-]].
    rewrite Hw in Hr. apply (He r Hr). reflexivity. }
  unfold assert_real.
  rewrite (not_iscomplex_all_one_real C (nth 0 C []) (nth 0 (nth 0 C []) Czero)).
  - cbn [Bool.eqb bind]. rewrite (map_np_real_id C Hreal). reflexivity.
  - apply nth_In. exact Hne.
  - apply nth_In. destruct (HC 0%nat Hne) as [Hw _]. rewrite Hw. lia.
  - destruct (HC 0%nat Hne) as [_ He]. apply (He 0%nat); [lia | reflexivity].
Qed.

(** C2: for [l >= 0], [real] true and a Cartesian triple [(lx, ly, lz)] of
    sum [l], the triple has a row [c] in the assembled matrix [C], whose
    entry for [m <> 0] is [(coeff(m) + sign * coeff(-m)) / sqrt(sign * 2)]
    with [sign = 1] if [m < 0] else [-1], the root being the complex one,
    and whose entry for [m = 0] is the coefficient of [cart2sph_coeff]
    unchanged; the returned matrix is the transpose of [C]. *)
Theorem real_combination_entries (l lx ly lz m : Z) (normalized : bool) :
  (0 <= lx)%Z -> (0 <= ly)%Z -> (0 <= lz)%Z -> (lx + ly + lz = l)%Z ->
  (- l <= m <= l)%Z ->
  exists (C : matrix) (c : nat) (coeff coeff_minus : complex),
    all_coeffs l true normalized = Some C /\
    cart2sph_coeffs_for l true normalized = Some (transpose C) /\
    nth_error (canonical_order l) c = Some (lx, ly, lz) /\
    cart2sph_coeff lx ly lz m normalized = Some coeff /\
    cart2sph_coeff lx ly lz (- m) normalized = Some coeff_minus /\
    let sign := if (m <? 0)%Z then 1%Z else (-1)%Z in
    let entry :=
      if (m =? 0)%Z then coeff
      else ((coeff + RtoC (IZR sign) * coeff_minus)
            / csqrt (RtoC (IZR (sign * 2))))%C in
    nth (Z.to_nat (m + l)) (nth c C []) Czero = entry /\
    nth c (nth (Z.to_nat (m + l)) (transpose C) []) Czero = entry.
Proof.
  intros Hx Hy Hz Hsum Hm.
  assert (Hl : (0 <= l)%Z) by lia.
  destruct (all_coeffs_entries l true normalized Hl) as [C (EC & Hlen & HC)].
  destruct (cart2sph_coeffs_for_returns l true normalized Hl)
    as [C' [EC' Efor]].
  assert (C' = C) by congruence. subst C'.
  assert (Hin : In (lx, ly, lz) (canonical_order l))
    by (apply in_canonical_order; auto).
  destruct (In_nth _ _ (0, 0, 0)%Z Hin) as [c [Hc Et]].
  destruct (cart2sph_coeff_returns lx ly lz m normalized ltac:(lia))
    as [coeff Ecoeff].
  destruct (cart2sph_coeff_returns lx ly lz (- m) normalized ltac:(lia))
    as [coeff_minus Eminus].
  exists C, c, coeff, coeff_minus.
  rewrite <- Hlen in Hc. destruct (HC c Hc) as [Hw He].
  assert (Hr : (Z.to_nat (m + l) < Z.to_nat (2 * l + 1))%nat) by lia.
  destruct (He _ Hr) as [Hentry _]. cbv zeta in Hentry.
  rewrite Et in Hentry. cbn [fst snd] in Hentry.
  replace (- l + Z.of_nat (Z.to_nat (m + l)))%Z with m in Hentry by lia.
  unfold m_entry in Hentry. rewrite Ecoeff in Hentry. cbn [bind andb] in Hentry.
  assert (Hnth : nth (Z.to_nat (m + l)) (nth c C []) Czero =
                 if (m =? 0)%Z then coeff
                 else ((coeff
                        + RtoC (IZR (if (m <? 0)%Z then 1 else -1)) * coeff_minus)
                       / csqrt (RtoC (IZR ((if (m <? 0)%Z then 1 else -1) * 2))))%C).
  { destruct (m =? 0)%Z; cbn [negb] in Hentry.
    - congruence.
    - rewrite Eminus in Hentry. cbn [bind] in Hentry. congruence. }
  repeat split; auto.
  - rewrite <- Et. apply nth_error_nth'. rewrite <- Hlen. exact Hc.
  - assert (Hne : (0 < length C)%nat) by lia.
    destruct (transpose_entries C (Z.to_nat (2 * l + 1)) Hne
                (fun c' Hc' => proj1 (HC c' Hc'))) as [_ Ht].
    destruct (Ht _ Hr) as [_ Ht']. rewrite (Ht' c Hc). exact Hnth.
Qed.

Lemma real_combination_entries_witness :
  exists (C : matrix) (c : nat) (coeff coeff_minus : complex),
    all_coeffs 2 true true = Some C /\
    cart2sph_coeffs_for 2 true true = Some (transpose C) /\
    nth_error (canonical_order 2) c = Some (1, 1, 0)%Z /\
    cart2sph_coeff 1 1 0 2 true = Some coeff /\
    cart2sph_coeff 1 1 0 (- 2) true = Some coeff_minus /\
    let sign := if (2 <? 0)%Z then 1%Z else (-1)%Z in
    let entry :=
      if (2 =? 0)%Z then coeff
      else ((coeff + RtoC (IZR sign) * coeff_minus)
            / csqrt (RtoC (IZR (sign * 2))))%C in
    nth (Z.to_nat (2 + 2)) (nth c C []) Czero = entry /\
    nth c (nth (Z.to_nat (2 + 2)) (transpose C) []) Czero = entry.
Proof. apply (real_combination_entries 2 1 1 0 2 true); lia. Defined.

(** The complex root in the combination: [sqrt(2)] for [sign = 1] and
    [sqrt(2) * i] for [sign = -1]. *)
Lemma csqrt_sign_2 :
  csqrt (RtoC (IZR (1 * 2))) = RtoC (sqrt 2) /\
  csqrt (RtoC (IZR (-1 * 2))) = Cx 0 (sqrt 2).
Proof.
  split.
  - change (IZR (1 * 2)) with 2. apply csqrt_RtoC_nonneg. lra.
  - replace (IZR (-1 * 2)) with (Ropp 2) by (simpl; lra).
    apply csqrt_RtoC_neg. lra.
Qed.

(** ** Thresholding *)

Lemma zero_entry_cases (t : R) (z : complex) :
  (Cmod z <= t /\ zero_entry t z = Czero) \/ (t < Cmod z /\ zero_entry t z = z).
Proof.
  unfold zero_entry, np_abs_le.
  destruct (Rle_dec (Cmod z) t) as [Hle | Hgt]; [left | right]; split;
    auto; lra.
Qed.

Lemma zero_entry_0 (t : R) : zero_entry t Czero = Czero.
Proof. unfold zero_entry. destruct (np_abs_le Czero t); reflexivity. Qed.

Lemma zero_entry_idem (t : R) (z : complex) :
  zero_entry t (zero_entry t z) = zero_entry t z.
Proof.
  unfold zero_entry. destruct (np_abs_le z t) eqn:E.
  - destruct (np_abs_le Czero t); reflexivity.
  - rewrite E. reflexivity.
Qed.

Lemma zero_small_pass_idem (t : R) (d : list (Z * matrix)) :
  zero_small_pass t (zero_small_pass t d) = zero_small_pass t d.
Proof.
  unfold zero_small_pass. rewrite map_map. apply map_ext. intros [l M].
  cbn [fst snd]. f_equal. rewrite map_map. apply map_ext. intros row.
  rewrite map_map. apply map_ext. intros z. apply zero_entry_idem.
Qed.

(** The pass changes every entry as [zero_entry] does, and nothing else:
    the keys, the shapes and the order of the entries are kept. *)
Lemma Forall2_map_r_same {A B : Type} (P : A -> B -> Prop) (f : A -> B)
  (xs : list A) :
  (forall x, P x (f x)) -> Forall2 P xs (map f xs).
Proof.
  intros H. induction xs as [| x xs IH]; cbn [map]; constructor; auto.
Qed.

Lemma zero_small_pass_entrywise (t : R) (d : list (Z * matrix)) :
  Forall2
    (fun before after : Z * matrix =>
       fst after = fst before /\
       Forall2 (Forall2 (fun x y : complex =>
                           (Cmod x <= t /\ y = Czero) \/
                           (t < Cmod x /\ y = x)))
               (snd before) (snd after))
    d (zero_small_pass t d).
Proof.
  unfold zero_small_pass. apply Forall2_map_r_same. intros [l M].
  cbn [fst snd]. split; [reflexivity |].
  apply Forall2_map_r_same. intros row.
  apply Forall2_map_r_same. intros z. apply zero_entry_cases.
Qed.

(** C8: thresholding with [zero_small] is idempotent.  The result of
    [cart2sph_coeffs] with [zero_small] is the thresholding pass applied
    to the result without it; applying the pass once more changes nothing;
    the pass keeps the keys and the shapes and, entry by entry, sets an
    entry of absolute value at most [zero_thresh] to exactly [0], where it
    stays, and leaves every other entry as it is. *)
Theorem zero_small_idempotent (l_max : Z) (zero_thresh : R)
  (real normalized : bool) :
  cart2sph_coeffs l_max true zero_thresh real normalized =
    option_map (zero_small_pass zero_thresh)
               (cart2sph_coeffs l_max false zero_thresh real normalized) /\
  option_map (zero_small_pass zero_thresh)
             (cart2sph_coeffs l_max true zero_thresh real normalized) =
    cart2sph_coeffs l_max true zero_thresh real normalized /\
  (forall d : list (Z * matrix),
     zero_small_pass zero_thresh (zero_small_pass zero_thresh d) =
     zero_small_pass zero_thresh d) /\
  (forall d : list (Z * matrix),
     Forall2
       (fun before after : Z * matrix =>
          fst after = fst before /\
          Forall2 (Forall2 (fun x y : complex =>
                              (Cmod x <= zero_thresh /\ y = Czero) \/
                              (zero_thresh < Cmod x /\ y = x)))
                  (snd before) (snd after))
       d (zero_small_pass zero_thresh d)) /\
  (forall z : complex,
     (Cmod z <= zero_thresh /\ zero_entry zero_thresh z = Czero) \/
     (zero_thresh < Cmod z /\ zero_entry zero_thresh z = z)) /\
  zero_entry zero_thresh Czero = Czero.
Proof.
  unfold cart2sph_coeffs.
  destruct (mapM _ (range (l_max + 1))) as [coeffs |]; cbn [bind option_map].
  - rewrite zero_small_pass_idem.
    repeat split; auto using zero_small_pass_idem, zero_small_pass_entrywise,
      zero_entry_cases, zero_entry_0.
  - repeat split; auto using zero_small_pass_idem, zero_small_pass_entrywise,
      zero_entry_cases, zero_entry_0.
Qed.

(** ** The assertion on the assembled matrix *)

(** The assertion fails exactly when every entry of [C] has a non-zero
    imaginary part. *)
Lemma assert_real_raises_iff (C : matrix) :
  assert_real C = None <->
  forall row, In row C -> forall z, In z row -> Im z <> 0.
Proof.
  unfold assert_real, not_iscomplex_all.
  destruct (forallb (forallb np_iscomplex) C) eqn:E; cbn [negb Bool.eqb].
  - split; [intros _ | reflexivity].
    intros row Hrow z Hz Him.
    rewrite forallb_forall in E. specialize (E row Hrow).
    rewrite forallb_forall in E. specialize (E z Hz).
    rewrite (np_iscomplex_false z Him) in E. discriminate.
  - split; [discriminate |]. intros H. exfalso.
    assert (E' : forallb (forallb np_iscomplex) C = true).
    { apply forallb_forall. intros row Hrow. apply forallb_forall.
      intros z Hz. apply np_iscomplex_true, (H row Hrow z Hz). }
    congruence.
Qed.

(** C4, where the code departs from it: the matrix with the entries [i]
    and [0] is not real, yet the assertion passes, because one entry has a
    zero imaginary part, and the cast keeps the real parts only. *)
Theorem assert_real_truncates_mixed_matrix :
  Im Ci <> 0 /\
  assert_real [[Ci; Czero]] = Some [[Czero; Czero]].
Proof.
  split; [simpl; lra |].
  unfold assert_real.
  rewrite (not_iscomplex_all_one_real [[Ci; Czero]] [Ci; Czero] Czero);
    [reflexivity | left; reflexivity | right; left; reflexivity | reflexivity].
Qed.

(** ** The matrix family *)

Lemma cart2sph_coeffs_for_entries (l : Z) (real normalized : bool) :
  (0 <= l)%Z ->
  exists M : matrix,
    cart2sph_coeffs_for l real normalized = Some M /\
    length M = Z.to_nat (2 * l + 1) /\
    forall r, (r < Z.to_nat (2 * l + 1))%nat ->
      length (nth r M []) = length (canonical_order l) /\
      forall c, (c < length (canonical_order l))%nat ->
        let t := nth c (canonical_order l) (0, 0, 0)%Z in
        m_entry (fst (fst t)) (snd (fst t)) (snd t) (- l + Z.of_nat r)
                real normalized
        = Some (nth c (nth r M []) Czero).
Proof.
  intros Hl.
  destruct (all_coeffs_entries l real normalized Hl) as [C (EC & Hlen & HC)].
  destruct (cart2sph_coeffs_for_returns l real normalized Hl)
    as [C' [EC' Efor]].
  assert (C' = C) by congruence. subst C'.
  pose proof (canonical_order_nonempty l Hl) as Hne. rewrite <- Hlen in Hne.
  destruct (transpose_entries C (Z.to_nat (2 * l + 1)) Hne
              (fun c' Hc' => proj1 (HC c' Hc'))) as [Hrows Ht].
  exists (transpose C). split; [exact Efor |]. split; [exact Hrows |].
  intros r Hr. destruct (Ht r Hr) as [Hw Hrc]. rewrite Hw, Hlen.
  split; [reflexivity |]. intros c Hc. cbv zeta.
  rewrite <- Hlen in Hc. rewrite (Hrc c Hc).
  destruct (HC c Hc) as [_ He]. apply (He r Hr).
Qed.

Lemma Forall2_In_r {A B : Type} (P : A -> B -> Prop) (xs : list A)
  (ys : list B) :
  Forall2 P xs ys -> forall y, In y ys -> exists x, In x xs /\ P x y.
Proof.
  induction 1 as [| x y xs ys Hxy _ IH]; intros y' Hy'; cbn [In] in Hy'.
  - contradiction.
  - destruct Hy' as [<- | Hy'].
    + exists x. split; [left; reflexivity | exact Hxy].
    + destruct (IH y' Hy') as [x' [Hx' HP]]. exists x'. split; [right |]; auto.
Qed.

Lemma Forall2_map_fst {A B : Type} (P : A -> A * B -> Prop) (xs : list A)
  (ys : list (A * B)) :
  Forall2 (fun x p => fst p = x /\ P x p) xs ys -> map fst ys = xs.
Proof.
  induction 1 as [| x y xs ys [Hxy _] _ IH]; cbn [map]; [reflexivity |].
  rewrite Hxy, IH. reflexivity.
Qed.

Lemma nth_map_fixed {A : Type} (f : A -> A) (xs : list A) (d : A) (n : nat) :
  f d = d -> nth n (map f xs) d = f (nth n xs d).
Proof.
  intros H. rewrite <- (map_nth f xs d n). rewrite H. reflexivity.
Qed.

Lemma zero_small_pass_fst (t : R) (d : list (Z * matrix)) :
  map fst (zero_small_pass t d) = map fst d.
Proof.
  unfold zero_small_pass. rewrite map_map. apply map_ext. intros [l M].
  reflexivity.
Qed.

(** C5: for [l_max >= 0], [cart2sph_coeffs] returns a dictionary whose
    keys are [0, 1, ..., l_max]; the matrix of the key [l] has [2 l + 1]
    rows of [(l + 1) (l + 2) / 2] entries, the row [r] belonging to
    [m = - l + r] and the column [c] to the [c]-th Cartesian triple of the
    canonical order. *)
Theorem cart2sph_coeffs_keys_and_shapes (l_max : Z) (zero_small : bool)
  (zero_thresh : R) (real normalized : bool) :
  (0 <= l_max)%Z ->
  exists d : list (Z * matrix),
    cart2sph_coeffs l_max zero_small zero_thresh real normalized = Some d /\
    map fst d = range (l_max + 1) /\
    (forall l, In l (map fst d) <-> (0 <= l <= l_max)%Z) /\
    forall l M, In (l, M) d ->
      length M = Z.to_nat (2 * l + 1) /\
      forall r, (r < Z.to_nat (2 * l + 1))%nat ->
        Z.of_nat (length (nth r M [])) = ((l + 1) * (l + 2) / 2)%Z /\
        forall c, (c < length (canonical_order l))%nat ->
          let t := nth c (canonical_order l) (0, 0, 0)%Z in
          option_map (if zero_small then zero_entry zero_thresh
                      else fun z => z)
                     (m_entry (fst (fst t)) (snd (fst t)) (snd t)
                              (- l + Z.of_nat r) real normalized)
          = Some (nth c (nth r M []) Czero).
Proof.
  intros Hmax. unfold cart2sph_coeffs.
  destruct (mapM_Forall2
              (fun l => C <- cart2sph_coeffs_for l real normalized ;;
                        Some (l, C))
              (fun l p => fst p = l /\
                          cart2sph_coeffs_for l real normalized = Some (snd p))
              (range (l_max + 1))) as [d' [Ed' Hd']].
  { intros l Hl. apply in_range in Hl.
    destruct (cart2sph_coeffs_for_entries l real normalized ltac:(lia))
      as [M [EM _]].
    exists (l, M). rewrite EM. cbn [bind fst snd]. auto. }
  rewrite Ed'. cbn [bind].
  pose proof (Forall2_map_fst _ _ _ Hd') as Hkeys.
  assert (Hshape : forall l M, In (l, M) d' ->
            (0 <= l)%Z /\ cart2sph_coeffs_for l real normalized = Some M).
  { intros l M Hin. destruct (Forall2_In_r _ _ _ Hd' _ Hin) as [l' [Hl' [E EM]]].
    cbn [fst snd] in E, EM. subst l'. apply in_range in Hl'. split; [lia | auto]. }
  eexists. split; [reflexivity |].
  assert (Hk : map fst (if zero_small then zero_small_pass zero_thresh d'
                        else d') = range (l_max + 1))
    by (destruct zero_small; [rewrite zero_small_pass_fst |]; exact Hkeys).
  split; [exact Hk |]. split.
  { intros l. rewrite Hk, in_range. lia. }
  intros l M Hin.
  assert (HM : exists M', In (l, M') d' /\
                 M = if zero_small
                     then map (map (zero_entry zero_thresh)) M' else M').
  { destruct zero_small; [| exists M; auto].
    unfold zero_small_pass in Hin. apply in_map_iff in Hin.
    destruct Hin as [[l' M'] [E Hin]]. cbn [fst snd] in E.
    inversion E; subst. exists M'. auto. }
  destruct HM as [M' [Hin' EM]]. destruct (Hshape l M' Hin') as [Hl EM'].
  destruct (cart2sph_coeffs_for_entries l real normalized Hl)
    as [M0 (EM0 & Hrows & Hent)].
  assert (M0 = M') by congruence. subst M0.
  pose proof (length_canonical_order l Hl) as Hcols.
  destruct zero_small; subst M.
  - split; [rewrite length_map; exact Hrows |].
    intros r Hr. destruct (Hent r Hr) as [Hw He].
    rewrite (nth_map_fixed (map (zero_entry zero_thresh)) M' [] r eq_refl).
    split; [rewrite length_map, Hw; exact Hcols |].
    intros c Hc. cbv zeta.
    rewrite (nth_map_fixed _ _ _ _ (zero_entry_0 zero_thresh)).
    rewrite (He c Hc). reflexivity.
  - split; [exact Hrows |].
    intros r Hr. destruct (Hent r Hr) as [Hw He].
    split; [rewrite Hw; exact Hcols |].
    intros c Hc. cbv zeta. rewrite (He c Hc). reflexivity.
Qed.

Lemma cart2sph_coeffs_keys_and_shapes_witness :
  exists d : list (Z * matrix),
    cart2sph_coeffs 2 true (1 / 100000000000000) true true = Some d /\
    map fst d = [0; 1; 2]%Z /\
    forall M, In (2%Z, M) d ->
      length M = 5%nat /\
      forall r, (r < 5)%nat -> length (nth r M []) = 6%nat.
Proof.
  destruct (cart2sph_coeffs_keys_and_shapes
              2 true (1 / 100000000000000) true true ltac:(lia))
    as [d (Ed & Hkeys & _ & Hd)].
  exists d. split; [exact Ed |]. split; [exact Hkeys |].
  intros M HM. destruct (Hd 2%Z M HM) as [Hrows Hcols].
  split; [exact Hrows |].
  intros r Hr. destruct (Hcols r Hr) as [Hw _].
  change ((2 + 1) * (2 + 2) / 2)%Z with 6%Z in Hw. lia.
Defined.

(** * Further properties of the code *)

(** ** Symmetries of the single coefficient *)

(** X1: for valid arguments the coefficients of [m] and [-m] both exist and
    are complex conjugates of each other. *)
Theorem coeff_of_minus_m_is_conjugate (lx ly lz m : Z) (normalized : bool) :
  (0 <= lx)%Z -> (0 <= ly)%Z -> (0 <= lz)%Z ->
  (Z.abs m <= lx + ly + lz)%Z ->
  exists c : complex,
    cart2sph_coeff lx ly lz m normalized = Some c /\
    cart2sph_coeff lx ly lz (- m) normalized = Some (Cconj c).
Proof.
  intros Hx Hy Hz Hm.
  destruct (Z.eq_dec m 0) as [-> | Hm0].
  - destruct (cart2sph_coeff_m0_real lx ly lz normalized Hx Hy Hz)
      as [z [Ez Hreal]].
    exists z. change (- 0)%Z with 0%Z.
    rewrite (Cconj_real z Hreal). auto.
  - destruct (cart2sph_coeff_returns lx ly lz m normalized Hm) as [c Ec].
    exists c. split; [exact Ec |].
    rewrite (cart2sph_coeff_opp lx ly lz m normalized Hx Hy Hz Hm Hm0), Ec.
    reflexivity.
Qed.

Lemma coeff_of_minus_m_is_conjugate_witness :
  exists c : complex,
    cart2sph_coeff 1 1 0 2 false = Some c /\
    cart2sph_coeff 1 1 0 (- 2) false = Some (Cconj c).
Proof. apply (coeff_of_minus_m_is_conjugate 1 1 0 2 false); simpl; lia. Defined.





(** ** The real matrix *)

(** X2: for [l >= 0] the call with [real] true never raises, and every
    entry of the matrix it returns has a zero imaginary part. *)
Theorem real_matrix_entries_are_real (l : Z) (normalized : bool) :
  (0 <= l)%Z ->
  exists M : matrix,
    cart2sph_coeffs_for l true normalized = Some M /\
    Forall (Forall (fun z => Im z = 0)) M.
Proof.
  intros Hl.
  destruct (all_coeffs_entries l true normalized Hl) as [C (EC & Hlen & HC)].
  destruct (cart2sph_coeffs_for_returns l true normalized Hl)
    as [C' [EC' Efor]].
  assert (C' = C) by congruence. subst C'.
  exists (transpose C). split; [exact Efor |].
  pose proof (canonical_order_nonempty l Hl) as Hne. rewrite <- Hlen in Hne.
  destruct (transpose_entries C (Z.to_nat (2 * l + 1)) Hne
              (fun c' Hc' => proj1 (HC c' Hc'))) as [Hrows Ht].
  apply Forall_forall. intros row Hrow. apply Forall_forall. intros z Hz.
  destruct (In_nth _ _ [] Hrow) as [r [Hr <-]]. rewrite Hrows in Hr.
  destruct (Ht r Hr) as [Hw Hrc].
  destruct (In_nth _ _ Czero Hz) as [c [Hc <-]]. rewrite Hw in Hc.
  rewrite (Hrc c Hc). destruct (HC c Hc) as [_ He].
  apply (He r Hr). reflexivity.
Qed.

Lemma real_matrix_entries_are_real_witness :
  exists M : matrix,
    cart2sph_coeffs_for 3 true false = Some M /\
    Forall (Forall (fun z => Im z = 0)) M.
Proof. apply (real_matrix_entries_are_real 3 false); lia. Defined.

Lemma RtoC_Re (z : complex) : Im z = 0 -> z = RtoC (Re z).
Proof. intros H. apply complex_eq; simpl; congruence. Qed.

(** The real combination, worked out: the conjugate symmetry leaves
    [sqrt 2] times the real part for [m < 0] and [sqrt 2] times the
    imaginary part for [m > 0]. *)
Lemma m_entry_explicit (lx ly lz m : Z) (normalized : bool) :
  (0 <= lx)%Z -> (0 <= ly)%Z -> (0 <= lz)%Z ->
  (Z.abs m <= lx + ly + lz)%Z ->
  exists c : complex,
    cart2sph_coeff lx ly lz m normalized = Some c /\
    m_entry lx ly lz m true normalized =
    Some (RtoC (if (m <? 0)%Z then sqrt 2 * Re c
                else if (m =? 0)%Z then Re c else sqrt 2 * Im c)).
Proof.
  intros Hx Hy Hz Hm. unfold m_entry.
  assert (H2 : sqrt 2 * sqrt 2 = 2) by (apply sqrt_sqrt; lra).
  assert (H0 : 0 < sqrt 2) by (apply sqrt_lt_R0; lra).
  destruct (Z.eqb_spec m 0) as [-> | Hm0].
  - destruct (cart2sph_coeff_m0_real lx ly lz normalized Hx Hy Hz)
      as [z [Ez Hreal]].
    exists z. rewrite Ez. cbn [bind andb negb Z.ltb Z.compare].
    split; [reflexivity |]. f_equal. apply RtoC_Re, Hreal.
  - destruct (cart2sph_coeff_returns lx ly lz m normalized Hm) as [c Ec].
    exists c. rewrite Ec. split; [reflexivity |]. cbn [bind negb andb].
    rewrite (cart2sph_coeff_opp lx ly lz m normalized Hx Hy Hz Hm Hm0), Ec.
    cbn [option_map bind]. f_equal.
    destruct (Z.ltb_spec m 0) as [Hneg | Hpos].
    + change (IZR (1 * 2)) with 2. rewrite csqrt_RtoC_nonneg by lra.
      apply complex_eq; simpl.
      * replace (sqrt 2 * sqrt 2 + 0 * 0) with 2 by lra. field.
      * unfold Rdiv. ring.
    + replace (IZR (-1 * 2)) with (Ropp 2) by (simpl; lra).
      rewrite csqrt_RtoC_neg by lra.
      apply complex_eq; simpl.
      * replace (0 * 0 + sqrt 2 * sqrt 2) with 2 by lra. field.
      * unfold Rdiv. ring.
Qed.

(** The entry of the returned matrix for a triple and an order. *)
Lemma returned_entry (l lx ly lz m : Z) (real normalized : bool) :
  (0 <= lx)%Z -> (0 <= ly)%Z -> (0 <= lz)%Z -> (lx + ly + lz = l)%Z ->
  (- l <= m <= l)%Z ->
  exists (M : matrix) (c : nat),
    cart2sph_coeffs_for l real normalized = Some M /\
    nth_error (canonical_order l) c = Some (lx, ly, lz) /\
    m_entry lx ly lz m real normalized =
    Some (nth c (nth (Z.to_nat (m + l)) M []) Czero).
Proof.
  intros Hx Hy Hz Hsum Hm.
  assert (Hl : (0 <= l)%Z) by lia.
  destruct (cart2sph_coeffs_for_entries l real normalized Hl)
    as [M (EM & Hrows & Hent)].
  assert (Hin : In (lx, ly, lz) (canonical_order l))
    by (apply in_canonical_order; auto).
  destruct (In_nth _ _ (0, 0, 0)%Z Hin) as [c [Hc Et]].
  exists M, c. split; [exact EM |]. split.
  - rewrite <- Et. apply nth_error_nth'. exact Hc.
  - assert (Hr : (Z.to_nat (m + l) < Z.to_nat (2 * l + 1))%nat) by lia.
    destruct (Hent _ Hr) as [_ He]. specialize (He c Hc). cbv zeta in He.
    rewrite Et in He. cbn [fst snd] in He.
    replace (- l + Z.of_nat (Z.to_nat (m + l)))%Z with m in He by lia.
    exact He.
Qed.

(** X3: in the matrix returned with [real] true, the entry of a triple and
    an order [m] is [sqrt 2] times the real part of the complex
    coefficient for [m < 0], [sqrt 2] times its imaginary part for
    [m > 0], and the coefficient itself, which is real, for [m = 0]. *)
Theorem real_matrix_entry_is_scaled_part (l lx ly lz m : Z)
  (normalized : bool) :
  (0 <= lx)%Z -> (0 <= ly)%Z -> (0 <= lz)%Z -> (lx + ly + lz = l)%Z ->
  (- l <= m <= l)%Z ->
  exists (M : matrix) (c : nat) (coeff : complex),
    cart2sph_coeffs_for l true normalized = Some M /\
    nth_error (canonical_order l) c = Some (lx, ly, lz) /\
    cart2sph_coeff lx ly lz m normalized = Some coeff /\
    nth c (nth (Z.to_nat (m + l)) M []) Czero =
    RtoC (if (m <? 0)%Z then sqrt 2 * Re coeff
          else if (m =? 0)%Z then Re coeff else sqrt 2 * Im coeff).
Proof.
  intros Hx Hy Hz Hsum Hm.
  destruct (returned_entry l lx ly lz m true normalized Hx Hy Hz Hsum Hm)
    as [M [c (EM & Ec & He)]].
  destruct (m_entry_explicit lx ly lz m normalized Hx Hy Hz ltac:(lia))
    as [coeff [Ecoeff Hexp]].
  exists M, c, coeff. repeat split; auto. congruence.
Qed.

Lemma real_matrix_entry_is_scaled_part_witness :
  exists (M : matrix) (c : nat) (coeff : complex),
    cart2sph_coeffs_for 2 true true = Some M /\
    nth_error (canonical_order 2) c = Some (1, 0, 1)%Z /\
    cart2sph_coeff 1 0 1 (-1) true = Some coeff /\
    nth c (nth (Z.to_nat (-1 + 2)) M []) Czero =
    RtoC (if (-1 <? 0)%Z then sqrt 2 * Re coeff
          else if (-1 =? 0)%Z then Re coeff else sqrt 2 * Im coeff).
Proof.
  apply (real_matrix_entry_is_scaled_part 2 1 0 1 (-1) true); lia.
Defined.

(** ** The normalization ratio *)

Lemma Rpower_pi_three_halves :
  Rpower np_pi (3 / 2) = np_pi * Rpower np_pi (1 / 2).
Proof.
  unfold np_pi. replace (3 / 2) with (1 + 1 / 2) by field.
  rewrite Rpower_plus, Rpower_1 by apply PI_RGT_0. reflexivity.
Qed.

Lemma powerRZ_2_plus_3 (z : Z) : powerRZ 2 (z + 3) = powerRZ 2 z * 8.
Proof.
  rewrite powerRZ_add by lra.
  replace (powerRZ 2 3) with 8 by (simpl; lra). reflexivity.
Qed.

(** In exact arithmetic the powers of two and of [pi] of the two
    normalization constants cancel. *)
Lemma norm_exact_closed_form (lx ly lz : Z) :
  (0 <= lx)%Z -> (0 <= ly)%Z -> (0 <= lz)%Z ->
  norm lx ly lz =
  RtoC (sqrt (8 * np_pi * fact (2 * lx) * fact (2 * ly) * fact (2 * lz)
              * fact (lx + ly + lz + 1)
              / (fact lx * fact ly * fact lz
                 * fact (2 * (lx + ly + lz) + 2)))).
Proof.
  intros Hx Hy Hz.
  pose proof (sph_norm_arg_pos (lx + ly + lz) ltac:(lia)) as HA.
  pose proof (cart_norm_arg_pos lx ly lz Hx Hy Hz) as HB.
  unfold norm, sph_norm, cart_norm. cbv zeta.
  rewrite !inv_csqrt_pos by assumption.
  rewrite RtoC_div
    by (apply Rgt_not_eq, Rinv_0_lt_compat, sqrt_lt_R0; assumption).
  f_equal. unfold Rdiv at 1. rewrite Rinv_inv, <- sqrt_inv, <- sqrt_mult_alt.
  - f_equal. rewrite Rpower_pi_three_halves.
    rewrite powerRZ_2_plus_3.
    pose proof (fact_pos (2 * lx) ltac:(lia)).
    pose proof (fact_pos (2 * ly) ltac:(lia)).
    pose proof (fact_pos (2 * lz) ltac:(lia)).
    pose proof (fact_pos lx Hx). pose proof (fact_pos ly Hy).
    pose proof (fact_pos lz Hz).
    pose proof (fact_pos (lx + ly + lz + 1) ltac:(lia)).
    pose proof (fact_pos (2 * (lx + ly + lz) + 2) ltac:(lia)).
    pose proof (powerRZ_2_pos (2 * (lx + ly + lz))).
    pose proof (Rpower_pos np_pi (1 / 2)).
    field. repeat split; apply Rgt_not_eq; assumption.
  - left. apply Rinv_0_lt_compat. exact HA.
Qed.

(** X7: below the overflow of the factorials, for non-negative exponents
    with [lx + ly + lz <= 84], [norm] returns the real square root of
    [8 pi (2lx)! (2ly)! (2lz)! (l+1)! / (lx! ly! lz! (2l+2)!)]. *)
Theorem norm_closed_form_below_overflow (lx ly lz : Z) :
  (0 <= lx)%Z -> (0 <= ly)%Z -> (0 <= lz)%Z -> (lx + ly + lz <= 84)%Z ->
  Double.norm lx ly lz =
  Some (Finite (sqrt (8 * np_pi * fact (2 * lx) * fact (2 * ly)
                      * fact (2 * lz) * fact (lx + ly + lz + 1)
                      / (fact lx * fact ly * fact lz
                         * fact (2 * (lx + ly + lz) + 2)))),
        Finite 0).
Proof.
  intros Hx Hy Hz Hl.
  destruct (norm_double_value lx ly lz Hx Hy Hz Hl) as [r [_ [E X]]].
  rewrite norm_exact_closed_form in X by assumption.
  apply (f_equal Re) in X. cbn [Re RtoC] in X. rewrite E, <- X. reflexivity.
Qed.

Lemma norm_closed_form_below_overflow_witness :
  Double.norm 1 0 2 =
  Some (Finite (sqrt (8 * np_pi * fact (2 * 1) * fact (2 * 0)
                      * fact (2 * 2) * fact (1 + 0 + 2 + 1)
                      / (fact 1 * fact 0 * fact 2
                         * fact (2 * (1 + 0 + 2) + 2)))),
        Finite 0).
Proof. apply (norm_closed_form_below_overflow 1 0 2); lia. Defined.

(** X13: the normalization constants do not depend on which axis carries
    which exponent: [cart_norm] and [norm] are unchanged when two of
    [lx], [ly], [lz] are exchanged. *)
Theorem norms_symmetric_in_exponents (lx ly lz : Z) :
  cart_norm lx ly lz = cart_norm ly lx lz /\
  cart_norm lx ly lz = cart_norm lx lz ly /\
  norm lx ly lz = norm ly lx lz /\
  norm lx ly lz = norm lx lz ly.
Proof.
  assert (E1 : cart_norm lx ly lz = cart_norm ly lx lz).
  { unfold cart_norm. cbv zeta.
    replace (ly + lx + lz)%Z with (lx + ly + lz)%Z by lia.
    apply (f_equal (fun x => Cone / csqrt (RtoC x))%C). f_equal; ring. }
  assert (E2 : cart_norm lx ly lz = cart_norm lx lz ly).
  { unfold cart_norm. cbv zeta.
    replace (lx + lz + ly)%Z with (lx + ly + lz)%Z by lia.
    apply (f_equal (fun x => Cone / csqrt (RtoC x))%C). f_equal; ring. }
  unfold norm. rewrite <- E1, <- E2.
  replace (ly + lx + lz)%Z with (lx + ly + lz)%Z by lia.
  replace (lx + lz + ly)%Z with (lx + ly + lz)%Z by lia.
  auto.
Qed.

(** ** More on thresholding *)

Lemma Cmod_nonneg (z : complex) : 0 <= Cmod z.
Proof. unfold Cmod. apply sqrt_pos. Qed.

Lemma zero_entry_compose (t1 t2 : R) (z : complex) :
  t1 <= t2 -> zero_entry t2 (zero_entry t1 z) = zero_entry t2 z.
Proof.
  intros Ht.
  destruct (zero_entry_cases t1 z) as [[H1 ->] | [H1 ->]]; [| reflexivity].
  rewrite zero_entry_0.
  destruct (zero_entry_cases t2 z) as [[H2 ->] | [H2 _]]; [reflexivity | lra].
Qed.

(** X8: thresholding passes compose: after a pass with the threshold [t1],
    a pass with a threshold [t2 >= t1] gives what the pass with [t2] alone
    gives. *)
Theorem zero_small_pass_compose (t1 t2 : R) (d : list (Z * matrix)) :
  t1 <= t2 ->
  zero_small_pass t2 (zero_small_pass t1 d) = zero_small_pass t2 d.
Proof.
  intros Ht. unfold zero_small_pass. rewrite map_map. cbn [fst snd].
  apply map_ext. intros [l M]. cbn [fst snd]. f_equal.
  rewrite map_map. apply map_ext. intros row.
  rewrite map_map. apply map_ext. intros z.
  apply zero_entry_compose, Ht.
Qed.

Lemma zero_small_pass_compose_witness :
  zero_small_pass 1 (zero_small_pass (1 / 2) [(0%Z, [[Ci; Czero]])]) =
  zero_small_pass 1 [(0%Z, [[Ci; Czero]])].
Proof. apply (zero_small_pass_compose (1 / 2) 1); lra. Defined.

Lemma Cmod_eq_0 (z : complex) : Cmod z = 0 -> z = Czero.
Proof.
  unfold Cmod. intros H. apply sqrt_eq_0 in H; [| nra].
  apply complex_eq; simpl; nra.
Qed.

Lemma zero_small_pass_nonpositive (t : R) (d : list (Z * matrix)) :
  t <= 0 -> zero_small_pass t d = d.
Proof.
  intros Ht. unfold zero_small_pass.
  rewrite <- (map_id d) at 2. apply map_ext. intros [l M]. cbn [fst snd].
  f_equal. rewrite <- (map_id M) at 2. apply map_ext. intros row.
  rewrite <- (map_id row) at 2. apply map_ext. intros z.
  destruct (zero_entry_cases t z) as [[H ->] | [_ H]]; [| exact H].
  symmetry. apply Cmod_eq_0. pose proof (Cmod_nonneg z). lra.
Qed.

(** X9: with a [zero_thresh] that is negative or zero the flag
    [zero_small] changes nothing: the only entries at or below the
    threshold are the zeros themselves. *)
Theorem nonpositive_threshold_changes_nothing (l_max : Z) (zero_thresh : R)
  (real normalized : bool) :
  zero_thresh <= 0 ->
  cart2sph_coeffs l_max true zero_thresh real normalized =
  cart2sph_coeffs l_max false zero_thresh real normalized.
Proof.
  intros Ht. unfold cart2sph_coeffs.
  destruct (mapM _ (range (l_max + 1))) as [coeffs |]; cbn [bind];
    [| reflexivity].
  rewrite (zero_small_pass_nonpositive _ _ Ht). reflexivity.
Qed.

Lemma nonpositive_threshold_changes_nothing_witness :
  cart2sph_coeffs 2 true 0 true true = cart2sph_coeffs 2 false 0 true true.
Proof.
  apply (nonpositive_threshold_changes_nothing 2 0 true true); lra.
Defined.


(** X11: the assertion of [cart2sph_coeffs_for] looks at exact zeros only:
    it fails exactly when every entry of the assembled matrix has a
    non-zero imaginary part (an empty matrix included), and when it
    passes, the result is the matrix of the real parts. *)
Theorem assertion_fails_iff_no_entry_is_real (C : matrix) :
  (assert_real C = None <->
   forall row, In row C -> forall z, In z row -> Im z <> 0) /\
  (assert_real C = None \/ assert_real C = Some (map (map np_real) C)).
Proof.
  split; [apply assert_real_raises_iff |].
  unfold assert_real. destruct (Bool.eqb true (not_iscomplex_all C)); auto.
Qed.

(** X12: for a negative [l_max] the range of [l] is empty and
    [cart2sph_coeffs] returns the empty dictionary, whatever the flags. *)
Theorem negative_l_max_gives_empty_dict (l_max : Z) (zero_small : bool)
  (zero_thresh : R) (real normalized : bool) :
  (l_max < 0)%Z ->
  cart2sph_coeffs l_max zero_small zero_thresh real normalized = Some [].
Proof.
  intros Hl. unfold cart2sph_coeffs, range.
  replace (Z.to_nat (l_max + 1)) with 0%nat by lia.
  cbn [seq map mapM bind]. destruct zero_small; reflexivity.
Qed.

Lemma negative_l_max_gives_empty_dict_witness :
  cart2sph_coeffs (-1) true 0 true false = Some [].
Proof. apply (negative_l_max_gives_empty_dict (-1) true 0 true false); lia. Defined.

(** ** Growing [l_max] *)

Lemma mapM_app {A B : Type} (f : A -> option B) (xs ys : list A) :
  mapM f (xs ++ ys) =
  (xs' <- mapM f xs ;; ys' <- mapM f ys ;; Some (xs' ++ ys')).
Proof.
  induction xs as [| x xs IH]; cbn [app mapM bind].
  - destruct (mapM f ys); reflexivity.
  - destruct (f x); cbn [bind]; [| reflexivity].
    rewrite IH. destruct (mapM f xs); cbn [bind]; [| reflexivity].
    destruct (mapM f ys); reflexivity.
Qed.

Lemma range_succ (n : Z) : (0 <= n)%Z -> range (n + 1) = range n ++ [n].
Proof.
  intros Hn. unfold range.
  replace (Z.to_nat (n + 1)) with (S (Z.to_nat n)) by lia.
  rewrite seq_S, map_app. cbn [map Nat.add]. rewrite Z2Nat.id by exact Hn.
  reflexivity.
Qed.

(** X18: raising [l_max] by one only adds the entry of the new [l]: the
    dictionary for [l_max + 1] is the dictionary for [l_max] followed by
    the item of the key [l_max + 1]. *)
Theorem larger_l_max_extends_dict (l_max : Z) (zero_small : bool)
  (zero_thresh : R) (real normalized : bool) :
  (0 <= l_max)%Z ->
  exists (d : list (Z * matrix)) (M : matrix),
    cart2sph_coeffs l_max zero_small zero_thresh real normalized = Some d /\
    cart2sph_coeffs (l_max + 1) zero_small zero_thresh real normalized =
    Some (d ++ [((l_max + 1)%Z, M)]).
Proof.
  intros Hl.
  destruct (cart2sph_coeffs_for_entries (l_max + 1) real normalized
              ltac:(lia)) as [M [EM _]].
  unfold cart2sph_coeffs.
  rewrite (range_succ (l_max + 1)) by lia. rewrite mapM_app.
  destruct (mapM_Forall2
              (fun l => C <- cart2sph_coeffs_for l real normalized ;;
                        Some (l, C))
              (fun _ _ => True) (range (l_max + 1))) as [d [Ed _]].
  { intros l Hin. apply in_range in Hin.
    destruct (cart2sph_coeffs_for_entries l real normalized ltac:(lia))
      as [M' [EM' _]].
    exists (l, M'). rewrite EM'. cbn [bind]. auto. }
  rewrite Ed. cbn [mapM bind]. rewrite EM. cbn [bind].
  destruct zero_small.
  - eexists; eexists. split; [reflexivity |].
    unfold zero_small_pass. rewrite map_app. reflexivity.
  - eexists; eexists. split; reflexivity.
Qed.

Lemma larger_l_max_extends_dict_witness :
  exists (d : list (Z * matrix)) (M : matrix),
    cart2sph_coeffs 1 true (1 / 2) true true = Some d /\
    cart2sph_coeffs (1 + 1) true (1 / 2) true true =
    Some (d ++ [((1 + 1)%Z, M)]).
Proof. apply (larger_l_max_extends_dict 1 true (1 / 2) true true); lia. Defined.

(** ** Normalized and unnormalized matrices *)

Lemma RtoC_div_l (z : complex) (r : R) :
  r <> 0 -> Im z = 0 -> (z / RtoC r)%C = RtoC (Re z / r).
Proof.
  intros Hr Hz. apply complex_eq; simpl; rewrite ?Hz; field; exact Hr.
Qed.




(** ** Printing *)

(** Transposing twice gives the matrix back. *)
Lemma transpose_involutive (C : matrix) (w : nat) :
  (0 < length C)%nat -> (0 < w)%nat ->
  (forall c, (c < length C)%nat -> length (nth c C []) = w) ->
  transpose (transpose C) = C.
Proof.
  intros Hne Hw Hrows.
  destruct (transpose_entries C w Hne Hrows) as [HlenT HT].
  assert (HneT : (0 < length (transpose C))%nat) by lia.
  destruct (transpose_entries (transpose C) (length C) HneT) as [HlenTT HTT].
  { intros r Hr. rewrite HlenT in Hr. apply (HT r Hr). }
  apply (nth_ext _ _ [] []); [exact HlenTT |].
  intros c Hc. rewrite HlenTT in Hc. destruct (HTT c Hc) as [Hw' Hent].
  apply (nth_ext _ _ Czero Czero).
  - rewrite Hw', HlenT. symmetry. apply Hrows, Hc.
  - intros r Hr. rewrite Hw' in Hr. rewrite (Hent r Hr).
    rewrite HlenT in Hr. destruct (HT r Hr) as [_ Hrc]. apply Hrc, Hc.
Qed.

Lemma transpose_all_coeffs (l : Z) (real normalized : bool) :
  (0 <= l)%Z ->
  exists C : matrix,
    all_coeffs l real normalized = Some C /\
    cart2sph_coeffs_for l real normalized = Some (transpose C) /\
    transpose (transpose C) = C.
Proof.
  intros Hl.
  destruct (all_coeffs_entries l real normalized Hl) as [C (EC & Hlen & HC)].
  destruct (cart2sph_coeffs_for_returns l real normalized Hl)
    as [C' [EC' Efor]].
  assert (C' = C) by congruence. subst C'.
  exists C. repeat split; auto.
  pose proof (canonical_order_nonempty l Hl) as Hne. rewrite <- Hlen in Hne.
  apply (transpose_involutive C (Z.to_nat (2 * l + 1)) Hne); [lia |].
  intros c Hc. apply (HC c Hc).
Qed.

Lemma Forall2_map_r {A B B' : Type} (P : A -> B -> Prop)
  (Q : A -> B' -> Prop) (f : B -> B') (xs : list A) (ys : list B) :
  (forall x y, P x y -> Q x (f y)) ->
  Forall2 P xs ys -> Forall2 Q xs (map f ys).
Proof.
  intros H. induction 1; cbn [map]; constructor; auto.
Qed.

(** X14: what [run] prints.  When the command line parses, [run] prints
    for each [l = 0 .. l_max], in this order, the line [l=...], then what
    [print_coeffs] prints for the matrix as the loops assembled it, one
    row per Cartesian triple (the two transpositions cancel), then an
    empty line; nothing raises. *)
Theorem run_prints_assembled_matrices
  (format_12_4f : complex -> String.string)
  (parse_args : list String.string -> option Namespace)
  (argv : list String.string) (args : Namespace) :
  parse_args argv = Some args ->
  exists blocks : list (list String.string),
    run format_12_4f parse_args argv = Some (concat blocks) /\
    Forall2
      (fun l block =>
         exists C : matrix,
           all_coeffs l true (negb (args_not_normalized args)) = Some C /\
           block = String.append "l=" (py_str l)
                   :: print_coeffs format_12_4f l C ++ [""%string])
      (range (args_l_max args + 1)) blocks.
Proof.
  intros Hargs. unfold run. rewrite Hargs. cbn [bind]. cbv zeta.
  unfold cart2sph_coeffs.
  set (normalized := negb (args_not_normalized args)).
  destruct (mapM_Forall2
              (fun l => C <- cart2sph_coeffs_for l true normalized ;;
                        Some (l, C))
              (fun l p => exists C : matrix,
                            all_coeffs l true normalized = Some C /\
                            transpose (transpose C) = C /\
                            p = (l, transpose C))
              (range (args_l_max args + 1))) as [Cs [ECs HCs]].
  { intros l Hl. apply in_range in Hl.
    destruct (transpose_all_coeffs l true normalized ltac:(lia))
      as [C (EC & Efor & Htt)].
    exists (l, transpose C). rewrite Efor. cbn [bind]. eauto. }
  rewrite ECs. cbn [bind]. rewrite flat_map_concat_map.
  eexists. split; [reflexivity |].
  refine (Forall2_map_r _ _ _ _ _ _ HCs).
  intros l p [C (EC & Htt & ->)]. exists C. split; [exact EC |].
  rewrite Htt. reflexivity.
Qed.

Lemma run_prints_assembled_matrices_witness :
  exists blocks : list (list String.string),
    run (fun _ => "      0.0000"%string)
        (fun _ => Some {| args_l_max := 1; args_not_normalized := true |})
        ["1"%string; "--not-normalized"%string]
    = Some (concat blocks) /\
    Forall2
      (fun l block =>
         exists C : matrix,
           all_coeffs l true (negb true) = Some C /\
           block = String.append "l=" (py_str l)
                   :: print_coeffs (fun _ => "      0.0000"%string) l C
                      ++ [""%string])
      (range (1 + 1)) blocks.
Proof.
  apply (run_prints_assembled_matrices
           (fun _ => "      0.0000"%string)
           (fun _ => Some {| args_l_max := 1; args_not_normalized := true |})
           ["1"%string; "--not-normalized"%string]
           {| args_l_max := 1; args_not_normalized := true |}).
  reflexivity.
Defined.

(** X15: [print_coeffs] prints the header and one line per pair of
    [zip(canonical_order(l), C)]: [min] of [(l + 1) (l + 2) / 2] and of the
    number of rows of [C]; surplus rows of [C] are dropped and missing
    ones are not reported. *)
Theorem print_coeffs_line_count (format_12_4f : complex -> String.string)
  (l : Z) (C : matrix) :
  (0 <= l)%Z ->
  Z.of_nat (length (print_coeffs format_12_4f l C)) =
  (1 + Z.min ((l + 1) * (l + 2) / 2) (Z.of_nat (length C)))%Z.
Proof.
  intros Hl. unfold print_coeffs. cbn [length].
  rewrite length_map, length_combine, <- (length_canonical_order l Hl).
  lia.
Qed.

Lemma print_coeffs_line_count_witness :
  Z.of_nat (length (print_coeffs (fun _ => "      0.0000"%string) 1
                      [[Czero]; [Cone]; [Ci]; [Czero]])) =
  (1 + Z.min ((1 + 1) * (1 + 2) / 2) (Z.of_nat 4))%Z.
Proof.
  apply (print_coeffs_line_count (fun _ => "      0.0000"%string) 1
           [[Czero]; [Cone]; [Ci]; [Czero]]).
  lia.
Defined.

(** ** Shells from a basis set *)

Lemma rmapM_inr {A B : Type} (f : A -> result B) (xs : list A)
  (ys : list B) :
  rmapM f xs = inr ys -> Forall2 (fun x y => f x = inr y) xs ys.
Proof.
  revert ys. induction xs as [| x xs IH]; intros ys H; cbn [rmapM] in H.
  - injection H as <-. constructor.
  - destruct (f x) as [e | y] eqn:Ey; cbn [rbind] in H; [discriminate |].
    destruct (rmapM f xs) as [e | ys'] eqn:Eys; cbn [rbind] in H;
      [discriminate |].
    injection H as <-. constructor; auto.
Qed.

Lemma length_rows3 (n : nat) (coords : list R) :
  length coords = (3 * n)%nat -> length (rows3 coords) = n.
Proof.
  revert coords. induction n as [| n IH]; intros coords H.
  - destruct coords; [reflexivity | discriminate].
  - destruct coords as [| x [| y [| z rest]]]; cbn [length] in H; try lia.
    cbn [rows3 length]. rewrite IH; [reflexivity | lia].
Qed.

Lemma Forall2_In_l {A B : Type} (P : A -> B -> Prop) (xs : list A)
  (ys : list B) :
  Forall2 P xs ys -> forall x, In x xs -> exists y, In y ys /\ P x y.
Proof.
  induction 1 as [| x y xs ys Hxy _ IH]; intros x' Hx'; cbn [In] in Hx'.
  - contradiction.
  - destruct Hx' as [<- | Hx'].
    + exists y. split; [left; reflexivity | exact Hxy].
    + destruct (IH x' Hx') as [y' [Hy' HP]]. exists y'. split; [right |]; auto.
Qed.

Lemma length_concat_sum {A B : Type} (g : A -> nat) (xs : list A)
  (yss : list (list B)) :
  Forall2 (fun x ys => length ys = g x) xs yss ->
  length (concat yss) = list_sum (map g xs).
Proof.
  induction 1 as [| x ys xs yss Hxy _ IH]; cbn [concat map list_sum];
    [reflexivity |].
  rewrite length_app, Hxy, IH. reflexivity.
Qed.

Lemma Forall2_impl {A B : Type} (P Q : A -> B -> Prop) (xs : list A)
  (ys : list B) :
  (forall x y, In x xs -> P x y -> Q x y) ->
  Forall2 P xs ys -> Forall2 Q xs ys.
Proof.
  intros H F. induction F as [| x y xs ys Hxy _ IH]; constructor.
  - apply H; [left; reflexivity | exact Hxy].
  - apply IH. intros x' y' Hx'. apply H. right. exact Hx'.
Qed.

Lemma in_combine_exists {A B : Type} (xs : list A) (ys : list B) (x : A) :
  length xs = length ys -> In x xs -> exists y, In (x, y) (combine xs ys).
Proof.
  revert ys. induction xs as [| a xs IH]; intros ys Hlen Hx;
    [contradiction |].
  destruct ys as [| b ys]; [discriminate |]. cbn [combine In].
  destruct Hx as [<- | Hx]; [exists b; auto |].
  destruct (IH ys ltac:(cbn [length] in Hlen; lia) Hx) as [y Hy].
  exists y. auto.
Qed.

Lemma map_snd_combine {A B : Type} (xs : list A) (ys : list B) :
  length xs = length ys -> map snd (combine xs ys) = ys.
Proof.
  revert ys. induction xs as [| a xs IH]; intros [| b ys] Hlen;
    cbn [length] in Hlen; try lia; cbn [combine map snd]; [reflexivity |].
  rewrite IH by lia. reflexivity.
Qed.

Lemma map_fst_combine {A B : Type} (xs : list A) (ys : list B) :
  length xs = length ys -> map fst (combine xs ys) = xs.
Proof.
  revert ys. induction xs as [| a xs IH]; intros [| b ys] Hlen;
    cbn [length] in Hlen; try lia; cbn [combine map fst]; [reflexivity |].
  rewrite IH by lia. reflexivity.
Qed.

Lemma in_combine_exists_r {A B : Type} (xs : list A) (ys : list B) (y : B) :
  length xs = length ys -> In y ys -> exists x, In (x, y) (combine xs ys).
Proof.
  revert ys. induction xs as [| a xs IH]; intros [| b ys] Hlen Hy;
    cbn [length] in Hlen; try lia; try contradiction.
  cbn [combine In]. destruct Hy as [<- | Hy]; [exists a; auto |].
  destruct (IH ys ltac:(lia) Hy) as [x Hx]. exists x. auto.
Qed.

Section BasisProperties.

Variables Exps Coeffs ShellT ShellsT : Type.
Variable ATOMIC_NUMBERS : String.string -> option Z.
Variable str_lower : String.string -> String.string.
Variable Shell :
  Z -> R * R * R -> Coeffs -> Exps -> String.string -> Z -> result ShellT.
Variable Shells : list ShellT -> result ShellsT.
Variable basis_from_json :
  String.string -> result (BasisDict Exps Coeffs).

Lemma bshell_shells_inr (c3d : R * R * R) (Zs : String.string) (i : Z)
  (b : BShell Exps Coeffs) (ss : list ShellT) :
  bshell_shells Exps Coeffs ShellT Shell c3d Zs i b = inr ss ->
  length (angular_momentum b) = 1%nat /\
  length ss = length (coefficients b).
Proof.
  unfold bshell_shells. cbv zeta.
  destruct (Nat.eqb_spec (length (angular_momentum b)) 1) as [E | E];
    cbn [negb]; [| discriminate].
  intros H. split; [exact E |].
  apply rmapM_inr, Forall2_length in H. symmetry. exact H.
Qed.

Lemma atom_shells_inr (B : BasisDict Exps Coeffs) (i : nat)
  (atom : String.string) (c3d : R * R * R) (ss : list ShellT) :
  atom_shells Exps Coeffs ShellT ATOMIC_NUMBERS str_lower Shell B
              (i, (atom, c3d)) = inr ss ->
  exists (n : Z) (el : Element Exps Coeffs),
    ATOMIC_NUMBERS (str_lower atom) = Some n /\
    B (py_str n) = Some el /\
    (forall b, In b (electron_shells el) ->
               length (angular_momentum b) = 1%nat) /\
    length ss =
    list_sum (map (fun b => length (coefficients b)) (electron_shells el)).
Proof.
  unfold atom_shells, getitem.
  destruct (ATOMIC_NUMBERS (str_lower atom)) as [n |] eqn:En; cbn [rbind];
    [| discriminate].
  destruct (B (py_str n)) as [el |] eqn:Eel; cbn [rbind]; [| discriminate].
  destruct (rmapM _ (electron_shells el)) as [e | bss] eqn:E; cbn [rbind];
    [discriminate |].
  intros H. injection H as <-. exists n, el.
  split; [reflexivity |]. split; [exact Eel |]. split.
  - intros b Hb. apply rmapM_inr in E.
    destruct (Forall2_In_l _ _ _ E b Hb) as [ss [_ Hss]].
    apply (bshell_shells_inr _ _ _ _ _ Hss).
  - apply length_concat_sum. apply rmapM_inr in E.
    refine (Forall2_impl _ _ _ _ _ E). intros b ss _ Hss.
    apply (bshell_shells_inr _ _ _ _ _ Hss).
Qed.

Lemma shells_with_basis_inr (atoms : list String.string) (coords : list R)
  (basis : option (BasisDict Exps Coeffs)) (name : option String.string)
  (shells_cls : option (list ShellT -> result ShellsT))
  (B : BasisDict Exps Coeffs) (S : ShellsT) :
  match name with
  | Some nm => basis_from_json nm = inr B
  | None => basis = Some B
  end ->
  shells_with_basis Exps Coeffs ShellT ShellsT ATOMIC_NUMBERS str_lower
    Shell Shells basis_from_json atoms coords basis name shells_cls = inr S ->
  length coords = (3 * length atoms)%nat /\
  (forall atom, In atom atoms ->
     exists (n : Z) (el : Element Exps Coeffs),
       ATOMIC_NUMBERS (str_lower atom) = Some n /\
       B (py_str n) = Some el /\
       forall b, In b (electron_shells el) ->
                 length (angular_momentum b) = 1%nat) /\
  exists shells : list ShellT,
    match shells_cls with None => Shells | Some cls => cls end shells
    = inr S /\
    length shells =
    list_sum
      (map (fun atom =>
              match ATOMIC_NUMBERS (str_lower atom) with
              | Some n =>
                  match B (py_str n) with
                  | Some el =>
                      list_sum (map (fun b => length (coefficients b))
                                    (electron_shells el))
                  | None => 0%nat
                  end
              | None => 0%nat
              end) atoms).
Proof.
  intros HB H.
  assert (H' : (coords3d <~ np_reshape3 (length atoms) coords ;;
                shells <~ rmapM (atom_shells Exps Coeffs ShellT
                                   ATOMIC_NUMBERS str_lower Shell B)
                                (combine (seq 0 (length atoms))
                                         (combine atoms coords3d)) ;;
                match shells_cls with None => Shells | Some cls => cls end
                  (concat shells)) = inr S).
  { unfold shells_with_basis in H. destruct name as [nm |].
    - destruct basis; rewrite HB in H; exact H.
    - subst basis. exact H. }
  clear H HB. unfold np_reshape3 in H'.
  destruct (Nat.eqb_spec (length coords) (3 * length atoms)) as [Hlen | _];
    cbn [rbind] in H'; [| discriminate].
  pose proof (length_rows3 _ _ Hlen) as Hrows.
  destruct (rmapM _ (combine _ (combine atoms (rows3 coords))))
    as [e | shells] eqn:E; cbn [rbind] in H'; [discriminate |].
  apply rmapM_inr in E.
  assert (Hc : length (seq 0 (length atoms)) =
               length (combine atoms (rows3 coords)))
    by (rewrite length_seq, length_combine, Hrows; lia).
  split; [exact Hlen |]. split.
  - intros atom Hatom.
    destruct (in_combine_exists atoms (rows3 coords) atom
                ltac:(symmetry; exact Hrows) Hatom) as [c3d Hac].
    destruct (in_combine_exists_r _ _ _ Hc Hac) as [i Hiac].
    destruct (Forall2_In_l _ _ _ E _ Hiac) as [ss [_ Hss]].
    destruct (atom_shells_inr _ _ _ _ _ Hss) as [n [el (En & Eel & Hsp & _)]].
    exists n, el. auto.
  - exists (concat shells). split; [exact H' |].
    rewrite (length_concat_sum
               (fun iac : nat * (String.string * (R * R * R)) =>
                  match ATOMIC_NUMBERS (str_lower (fst (snd iac))) with
                  | Some n =>
                      match B (py_str n) with
                      | Some el =>
                          list_sum (map (fun b => length (coefficients b))
                                        (electron_shells el))
                      | None => 0%nat
                      end
                  | None => 0%nat
                  end)
               (combine (seq 0 (length atoms)) (combine atoms (rows3 coords)))
               shells).
    + f_equal.
      assert (Hat : map (fun iac : nat * (String.string * (R * R * R)) =>
                           fst (snd iac))
                        (combine (seq 0 (length atoms))
                                 (combine atoms (rows3 coords))) = atoms).
      { rewrite <- (map_map snd fst), (map_snd_combine _ _ Hc).
        apply map_fst_combine. symmetry. exact Hrows. }
      etransitivity; [| apply f_equal, Hat]. rewrite map_map. reflexivity.
    + refine (Forall2_impl _ _ _ _ _ E).
      intros [i [atom c3d]] ss _ Hss. cbn [fst snd].
      destruct (atom_shells_inr _ _ _ _ _ Hss) as [n [el (En & Eel & _ & Hn)]].
      rewrite En, Eel. exact Hn.
Qed.

(** X16: [shells_with_basis] returns only for well-formed input.  When it
    returns, [coords] has three entries per atom, every atom is in
    [ATOMIC_NUMBERS], its atomic number is a key of the basis in use (the
    file of [name] when [name] is given, else [basis]), and every electron
    shell of every atom has exactly one angular momentum: a basis with an
    SP shell for one of the atoms never gives shells. *)
Theorem shells_with_basis_returns_only_if_well_formed
  (atoms : list String.string) (coords : list R)
  (basis : option (BasisDict Exps Coeffs)) (name : option String.string)
  (shells_cls : option (list ShellT -> result ShellsT))
  (B : BasisDict Exps Coeffs) (S : ShellsT) :
  match name with
  | Some nm => basis_from_json nm = inr B
  | None => basis = Some B
  end ->
  shells_with_basis Exps Coeffs ShellT ShellsT ATOMIC_NUMBERS str_lower
    Shell Shells basis_from_json atoms coords basis name shells_cls = inr S ->
  length coords = (3 * length atoms)%nat /\
  forall atom, In atom atoms ->
    exists (n : Z) (el : Element Exps Coeffs),
      ATOMIC_NUMBERS (str_lower atom) = Some n /\
      B (py_str n) = Some el /\
      forall b, In b (electron_shells el) ->
                length (angular_momentum b) = 1%nat.
Proof.
  intros HB H.
  destruct (shells_with_basis_inr _ _ _ _ _ _ _ HB H) as (H1 & H2 & _).
  auto.
Qed.

(** X17: when [shells_with_basis] returns, [shells_cls] was given one shell
    per list of contraction coefficients: as many shells as the sum, over
    the atoms, of the numbers of entries of ["coefficients"] in all the
    electron shells of the atom. *)
Theorem shells_with_basis_shell_count
  (atoms : list String.string) (coords : list R)
  (basis : option (BasisDict Exps Coeffs)) (name : option String.string)
  (shells_cls : option (list ShellT -> result ShellsT))
  (B : BasisDict Exps Coeffs) (S : ShellsT) :
  match name with
  | Some nm => basis_from_json nm = inr B
  | None => basis = Some B
  end ->
  shells_with_basis Exps Coeffs ShellT ShellsT ATOMIC_NUMBERS str_lower
    Shell Shells basis_from_json atoms coords basis name shells_cls = inr S ->
  exists shells : list ShellT,
    match shells_cls with None => Shells | Some cls => cls end shells
    = inr S /\
    length shells =
    list_sum
      (map (fun atom =>
              match ATOMIC_NUMBERS (str_lower atom) with
              | Some n =>
                  match B (py_str n) with
                  | Some el =>
                      list_sum (map (fun b => length (coefficients b))
                                    (electron_shells el))
                  | None => 0%nat
                  end
              | None => 0%nat
              end) atoms).
Proof.
  intros HB H.
  destruct (shells_with_basis_inr _ _ _ _ _ _ _ HB H) as (_ & _ & H3).
  exact H3.
Qed.

End BasisProperties.

Lemma shells_with_basis_returns_only_if_well_formed_witness :
  length [0; 0; 0] = (3 * length ["H"%string])%nat.
Proof.
  refine (proj1
    (shells_with_basis_returns_only_if_well_formed nat nat Z (list Z)
       (fun s => if String.eqb s "h" then Some 1%Z else None)
       (fun s => if String.eqb s "H" then "h"%string else s)
       (fun L _ _ _ _ _ => inr L) (fun ss => inr ss)
       (fun _ => inl ExternalError)
       ["H"%string] [0; 0; 0]
       (Some (fun key =>
                if String.eqb key "1"
                then Some {| electron_shells :=
                               [ {| angular_momentum := [0%Z];
                                    exponents := 3%nat;
                                    coefficients := [1%nat; 2%nat] |} ] |}
                else None))
       None None _ [0%Z; 0%Z] eq_refl eq_refl)).
Defined.

Lemma shells_with_basis_shell_count_witness :
  exists shells : list Z,
    (inr shells : result (list Z)) = inr [0%Z; 0%Z] /\
    length shells = 2%nat.
Proof.
  exact (shells_with_basis_shell_count nat nat Z (list Z)
       (fun s => if String.eqb s "h" then Some 1%Z else None)
       (fun s => if String.eqb s "H" then "h"%string else s)
       (fun L _ _ _ _ _ => inr L) (fun ss => inr ss)
       (fun _ => inl ExternalError)
       ["H"%string] [0; 0; 0]
       (Some (fun key =>
                if String.eqb key "1"
                then Some {| electron_shells :=
                               [ {| angular_momentum := [0%Z];
                                    exponents := 3%nat;
                                    coefficients := [1%nat; 2%nat] |} ] |}
                else None))
       None None _ [0%Z; 0%Z] eq_refl eq_refl).
Defined.
